(** * A shallow embedding of the circuit breaker package

    The development follows the Go package file by file:
    the sliding window (ring buffer of call outcomes), the configuration
    with its defaults, the three-state breaker with its per-call protocol,
    and the registry of named breakers.

    Conventions.
    - A Go [int] / [int64] is a [Z]; arithmetic that the program performs
      on it goes through [wrap], two's-complement wrap-around on 64 bits.
    - A Go [float64] is a primitive binary64 float.
    - A run-time panic (index out of range, division by zero) is [None].
    - [time.Time] is a number of nanoseconds; a clock is a sequence of
      readings, one consumed at every call of [now]. *)

From Stdlib Require Import ZArith Lia Bool.
From Stdlib Require Uint63 SpecFloat FloatOps FloatAxioms.
From Stdlib Require Import PrimFloat.
From stdpp Require Import base option list gmap strings.

Open Scope Z_scope.

(** ** Machine integers and floats *)

Module Go.

Definition min_int : Z := - 2 ^ 63.
Definition max_int : Z := 2 ^ 63 - 1.

(** Two's-complement reduction of a mathematical integer to 64 bits. *)
Definition wrap (z : Z) : Z := (z + 2 ^ 63) mod 2 ^ 64 - 2 ^ 63.

Definition add (a b : Z) : Z := wrap (a + b).
Definition sub (a b : Z) : Z := wrap (a - b).

(** [a % b]: truncated remainder; panics when [b] is zero. *)
Definition rem (a b : Z) : option Z :=
  if b =? 0 then None else Some (Z.rem a b).

(** [len(s)] *)
Definition len {A} (s : list A) : Z := Z.of_nat (length s).

(** [s[i]]: panics out of range. *)
Definition index {A} (s : list A) (i : Z) : option A :=
  if (0 <=? i) && (i <? len s) then s !! Z.to_nat i else None.

(** [s[i] = x]: panics out of range. *)
Definition store {A} (s : list A) (i : Z) (x : A) : option (list A) :=
  if (0 <=? i) && (i <? len s) then Some (<[Z.to_nat i := x]> s) else None.

(** [float64(n)] for an [int] n, rounded to nearest as Go does. The
    counters this is applied to are never negative; at [min_int] the
    magnitude does not fit the unsigned conversion used here. *)
Definition float64 (n : Z) : PrimFloat.float :=
  if n <? 0
  then PrimFloat.opp (PrimFloat.of_uint63 (Uint63.of_Z (- n)))
  else PrimFloat.of_uint63 (Uint63.of_Z n).

(** The constant [0] as a float64. *)
Definition fzero : PrimFloat.float := 0%float.

(** [x >= y] on float64. *)
Definition fge (x y : PrimFloat.float) : bool := PrimFloat.leb y x.
(** [x <= y] on float64. *)
Definition fle (x y : PrimFloat.float) : bool := PrimFloat.leb x y.

End Go.

(** ** window.go, first part: the sliding window *)

(** [type outcome bool], [success = true], [failure = false]. *)
Definition outcome := bool.
Definition success : outcome := true.
Definition failure : outcome := false.

Record slidingWindow := mkWindow {
  buf : list outcome;
  pos : Z;     (* next write position *)
  count : Z;   (* number of recorded outcomes (up to len(buf)) *)
  fails : Z    (* number of failures currently in the window *)
}.

Definition set_buf (b : list outcome) (w : slidingWindow) :=
  mkWindow b (pos w) (count w) (fails w).
Definition set_pos (p : Z) (w : slidingWindow) :=
  mkWindow (buf w) p (count w) (fails w).
Definition set_count (c : Z) (w : slidingWindow) :=
  mkWindow (buf w) (pos w) c (fails w).
Definition set_fails (f : Z) (w : slidingWindow) :=
  mkWindow (buf w) (pos w) (count w) f.

(** [make([]outcome, size)] yields [size] zero values, and the zero value
    of [outcome] is [false], that is [failure]. *)
Definition newSlidingWindow (size : Z) : slidingWindow :=
  let size := if size <=? 0 then 1 else size in
  mkWindow (replicate (Z.to_nat size) failure) 0 0 0.

Definition record (o : outcome) (w : slidingWindow) : option slidingWindow :=
  w ← (if count w =? Go.len (buf w) then
         old ← Go.index (buf w) (pos w);
         Some (if bool_decide (old = failure)
               then set_fails (Go.sub (fails w) 1) w else w)
       else Some (set_count (Go.add (count w) 1) w));
  b ← Go.store (buf w) (pos w) o;
  let w := set_buf b w in
  let w := if bool_decide (o = failure)
           then set_fails (Go.add (fails w) 1) w else w in
  p ← Go.rem (Go.add (pos w) 1) (Go.len (buf w));
  Some (set_pos p w).

Definition failureRate (w : slidingWindow) : PrimFloat.float :=
  if count w =? 0 then Go.fzero
  else PrimFloat.div (Go.float64 (fails w)) (Go.float64 (count w)).

Definition total (w : slidingWindow) : Z := count w.

Definition reset (w : slidingWindow) : slidingWindow :=
  mkWindow (buf w) 0 0 0.

(** A sequence of [record] calls, oldest first. *)
Fixpoint record_all (os : list outcome) (w : slidingWindow)
  : option slidingWindow :=
  match os with
  | [] => Some w
  | o :: os => w ← record o w; record_all os w
  end.


(** ** state.go *)

(** [type State int] with the three constants the breaker ever stores. *)
Inductive State := StateClosed | StateOpen | StateHalfOpen.

#[global] Instance State_eq_dec : EqDecision State.
Proof. solve_decision. Defined.

Definition State_String (s : State) : string :=
  match s with
  | StateClosed => "closed"
  | StateOpen => "open"
  | StateHalfOpen => "half-open"
  end.

(** ** errors.go, and the values that travel through a call *)

(** Error values, compared by identity as [errors.Is] does for sentinel
    errors: the package's [ErrCircuitOpen], the two errors a [context]
    reports, and any error made by the wrapped operation. *)
Inductive error_value :=
| ErrCircuitOpen
| context_Canceled
| context_DeadlineExceeded
| errors_New (text : string).

(** A Go [error]: [None] is [nil]. *)
Definition error := option error_value.

#[global] Instance error_value_eq_dec : EqDecision error_value.
Proof. solve_decision. Defined.

(** [err != nil] *)
Definition not_nil (e : error) : bool :=
  match e with Some _ => true | None => false end.

(** ** Time *)

(** An instant and a duration, both in nanoseconds. [Sub] saturates at the
    bounds of [Duration], an [int64]. *)
Definition Time := Z.
Definition Duration := Z.

Definition Time_Sub (t u : Time) : Duration :=
  Z.max Go.min_int (Z.min Go.max_int (t - u)).

Definition Second : Duration := 1000000000.

(** ** What lies outside the breaker

    The clock is a sequence of readings; [reads] counts how many have been
    consumed. Both [time.Now] and the overridable [cb.now] draw from it: the
    readings are arbitrary, so nothing is assumed about either clock. The
    trace lists, oldest first, the calls the breaker makes to code it does
    not own. *)
Inductive event :=
| Warn (msg name from to : string)              (* slog.Warn(msg, ...) *)
| StateChanged (name : string) (from to : State) (* cfg.OnStateChange(...) *)
| Invoked                                        (* fn(ctx) *)
| FellBack (err : error).                        (* cfg.Fallback(ctx, err) *)

#[global] Instance event_eq_dec : EqDecision event.
Proof. solve_decision. Defined.

Record World := mkWorld {
  clock : nat -> Time;
  reads : nat;
  trace : list event
}.

(** [cb.now()] / [time.Now()] *)
Definition now (w : World) : Time * World :=
  (clock w (reads w), mkWorld (clock w) (S (reads w)) (trace w)).

Definition emit (e : event) (w : World) : World :=
  mkWorld (clock w) (reads w) (trace w ++ [e]).

(** The outcome of one invocation of an operation that returns a [T]:
    what it returns, and what [ctx.Err()] reports once it has returned. *)
Record typed_call (T : Type) := mkTypedCall {
  typed_result : T;
  typed_err : error;
  typed_ctx_Err : error
}.

Arguments mkTypedCall {T} _ _ _.
Arguments typed_result {T} _.
Arguments typed_err {T} _.
Arguments typed_ctx_Err {T} _.

Section Breaker.

(** The dynamic values an [any] can hold; [None] is the nil interface. *)
Context {V : Type}.
Definition any := option V.

(** ** window.go, second part: the breaker *)

Record Config := mkConfig {
  Name : string;
  WindowSize : Z;
  FailureThreshold : PrimFloat.float;
  MinRequests : Z;
  RecoveryTimeout : Duration;
  ProbeCount : Z;
  (* The fallback as a function of the rejection it is handed. *)
  Fallback : option (error -> any * error);
  (* Whether a transition callback is installed; its calls go to the trace. *)
  OnStateChange : option unit
}.

Definition withDefaults (c : Config) : Config :=
  let cfg := c in
  let cfg := if WindowSize cfg <=? 0
             then mkConfig (Name cfg) 20 (FailureThreshold cfg) (MinRequests cfg)
                    (RecoveryTimeout cfg) (ProbeCount cfg) (Fallback cfg) (OnStateChange cfg)
             else cfg in
  let cfg := if Go.fle (FailureThreshold cfg) Go.fzero
             then mkConfig (Name cfg) (WindowSize cfg) 0.5%float (MinRequests cfg)
                    (RecoveryTimeout cfg) (ProbeCount cfg) (Fallback cfg) (OnStateChange cfg)
             else cfg in
  let cfg := if MinRequests cfg <=? 0
             then mkConfig (Name cfg) (WindowSize cfg) (FailureThreshold cfg) 5
                    (RecoveryTimeout cfg) (ProbeCount cfg) (Fallback cfg) (OnStateChange cfg)
             else cfg in
  let cfg := if RecoveryTimeout cfg <=? 0
             then mkConfig (Name cfg) (WindowSize cfg) (FailureThreshold cfg) (MinRequests cfg)
                    (30 * Second) (ProbeCount cfg) (Fallback cfg) (OnStateChange cfg)
             else cfg in
  let cfg := if ProbeCount cfg <=? 0
             then mkConfig (Name cfg) (WindowSize cfg) (FailureThreshold cfg) (MinRequests cfg)
                    (RecoveryTimeout cfg) 3 (Fallback cfg) (OnStateChange cfg)
             else cfg in
  cfg.

Record CircuitBreaker := mkBreaker {
  cfg : Config;
  state : State;
  window : slidingWindow;
  openedAt : Time;
  lastStateChange : Time;
  probeSuccesses : Z;
  totalRequests : Z;
  totalSuccesses : Z;
  totalFailures : Z
}.

Definition set_state (s : State) (cb : CircuitBreaker) :=
  mkBreaker (cfg cb) s (window cb) (openedAt cb) (lastStateChange cb)
    (probeSuccesses cb) (totalRequests cb) (totalSuccesses cb) (totalFailures cb).
Definition set_window (x : slidingWindow) (cb : CircuitBreaker) :=
  mkBreaker (cfg cb) (state cb) x (openedAt cb) (lastStateChange cb)
    (probeSuccesses cb) (totalRequests cb) (totalSuccesses cb) (totalFailures cb).
Definition set_openedAt (t : Time) (cb : CircuitBreaker) :=
  mkBreaker (cfg cb) (state cb) (window cb) t (lastStateChange cb)
    (probeSuccesses cb) (totalRequests cb) (totalSuccesses cb) (totalFailures cb).
Definition set_lastStateChange (t : Time) (cb : CircuitBreaker) :=
  mkBreaker (cfg cb) (state cb) (window cb) (openedAt cb) t
    (probeSuccesses cb) (totalRequests cb) (totalSuccesses cb) (totalFailures cb).
Definition set_probeSuccesses (n : Z) (cb : CircuitBreaker) :=
  mkBreaker (cfg cb) (state cb) (window cb) (openedAt cb) (lastStateChange cb)
    n (totalRequests cb) (totalSuccesses cb) (totalFailures cb).
Definition set_totalRequests (n : Z) (cb : CircuitBreaker) :=
  mkBreaker (cfg cb) (state cb) (window cb) (openedAt cb) (lastStateChange cb)
    (probeSuccesses cb) n (totalSuccesses cb) (totalFailures cb).
Definition set_totalSuccesses (n : Z) (cb : CircuitBreaker) :=
  mkBreaker (cfg cb) (state cb) (window cb) (openedAt cb) (lastStateChange cb)
    (probeSuccesses cb) (totalRequests cb) n (totalFailures cb).
Definition set_totalFailures (n : Z) (cb : CircuitBreaker) :=
  mkBreaker (cfg cb) (state cb) (window cb) (openedAt cb) (lastStateChange cb)
    (probeSuccesses cb) (totalRequests cb) (totalSuccesses cb) n.

(** [New]: the zero [time.Time] of [openedAt] is instant 0. *)
Definition New (c : Config) (w : World) : CircuitBreaker * World :=
  let cfg := withDefaults c in
  let '(t, w) := now w in
  (mkBreaker cfg StateClosed (newSlidingWindow (WindowSize cfg)) 0 t 0 0 0 0, w).

Definition setState (to : State) (cb : CircuitBreaker) (w : World)
  : CircuitBreaker * World :=
  let from := state cb in
  if bool_decide (from = to) then (cb, w)
  else
    let cb := set_state to cb in
    let '(t, w) := now w in
    let cb := set_lastStateChange t cb in
    let w := emit (Warn "circuit breaker state change" (Name (cfg cb))
                     (State_String from) (State_String to)) w in
    let w := match OnStateChange (cfg cb) with
             | Some _ => emit (StateChanged (Name (cfg cb)) from to) w
             | None => w
             end in
    (cb, w).

(** The outcome of one invocation of the wrapped operation: what [fn]
    returns, and what [ctx.Err()] reports once it has returned. *)
Record call := mkCall {
  fn_result : any;
  fn_err : error;
  ctx_Err : error
}.

Definition beforeCall (cb : CircuitBreaker) (w : World)
  : error * CircuitBreaker * World :=
  match state cb with
  | StateClosed => (None, cb, w)
  | StateOpen =>
      let '(t, w) := now w in
      if Time_Sub t (openedAt cb) >=? RecoveryTimeout (cfg cb) then
        let '(cb, w) := setState StateHalfOpen cb w in
        (None, cb, w) (* allow probe *)
      else (Some ErrCircuitOpen, cb, w)
  | StateHalfOpen => (None, cb, w) (* probes allowed *)
  end.

Definition afterCall (err : error) (cb : CircuitBreaker) (w : World)
  : option (CircuitBreaker * World) :=
  match state cb with
  | StateClosed =>
      win ← record (if not_nil err then failure else success) (window cb);
      let cb := set_window win cb in
      if (total (window cb) >=? MinRequests (cfg cb))
         && Go.fge (failureRate (window cb)) (FailureThreshold (cfg cb))
      then
        let '(cb, w) := setState StateOpen cb w in
        let '(t, w) := now w in
        Some (set_openedAt t cb, w)
      else Some (cb, w)
  | StateHalfOpen =>
      if not_nil err then
        let '(cb, w) := setState StateOpen cb w in
        let '(t, w) := now w in
        let cb := set_openedAt t cb in
        Some (set_probeSuccesses 0 cb, w)
      else
        let cb := set_probeSuccesses (Go.add (probeSuccesses cb) 1) cb in
        if probeSuccesses cb >=? ProbeCount (cfg cb) then
          let '(cb, w) := setState StateClosed cb w in
          let cb := set_window (reset (window cb)) cb in
          Some (set_probeSuccesses 0 cb, w)
        else Some (cb, w)
  | StateOpen => Some (cb, w)
  end.

Definition Execute (c : call) (cb : CircuitBreaker) (w : World)
  : option (any * error * CircuitBreaker * World) :=
  let cb := set_totalRequests (Go.add (totalRequests cb) 1) cb in
  let '(err, cb, w) := beforeCall cb w in
  if not_nil err then
    let cb := set_totalFailures (Go.add (totalFailures cb) 1) cb in
    match Fallback (cfg cb) with
    | Some fallback =>
        let '(result, err') := fallback err in
        Some (result, err', cb, emit (FellBack err) w)
    | None => Some (None, err, cb, w)
    end
  else
    let w := emit Invoked w in
    let '(result, err) := (fn_result c, fn_err c) in
    if not_nil err && not_nil (ctx_Err c) then
      (* Context was cancelled: don't count this outcome. *)
      Some (result, err, cb, w)
    else
      '(cb, w) ← afterCall err cb w;
      let cb := if not_nil err
                then set_totalFailures (Go.add (totalFailures cb) 1) cb
                else set_totalSuccesses (Go.add (totalSuccesses cb) 1) cb in
      Some (result, err, cb, w).

(** The method [State]. *)
Definition State_ (cb : CircuitBreaker) (w : World)
  : State * CircuitBreaker * World :=
  match state cb with
  | StateOpen =>
      let '(t, w') := now w in
      if Time_Sub t (openedAt cb) >=? RecoveryTimeout (cfg cb) then
        let '(cb, w') := setState StateHalfOpen cb w' in
        (state cb, cb, w')
      else (state cb, cb, w')
  | _ => (state cb, cb, w)
  end.

Record Metrics_ := mkMetrics {
  TotalRequests : Z;
  TotalSuccesses : Z;
  TotalFailures : Z;
  CurrentState : State;
  LastStateChange : Time;
  WindowFailureRate : PrimFloat.float
}.

(** The method [Metrics]. *)
Definition Metrics (cb : CircuitBreaker) : Metrics_ :=
  mkMetrics (totalRequests cb) (totalSuccesses cb) (totalFailures cb)
    (state cb) (lastStateChange cb) (failureRate (window cb)).

(** The generic wrapper [Execute[T]], for a concrete type [T]. The closure
    it passes on returns the operation's [T] as an [any]: [box]. The type
    assertion [result.(T)] is [unbox]; it panics on a value of another type
    and on the nil interface. [zero] is the zero value of [T]. *)
Definition Execute_T {T : Type} (box : T -> V) (unbox : V -> option T) (zero : T)
    (c : typed_call T) (cb : CircuitBreaker) (w : World)
  : option (T * error * CircuitBreaker * World) :=
  '(result, err, cb, w) ←
    Execute (mkCall (Some (box (typed_result c))) (typed_err c) (typed_ctx_Err c)) cb w;
  if not_nil err then Some (zero, err, cb, w)
  else
    t ← (v ← result; unbox v);
    Some (t, None, cb, w).

(** A sequence of [Execute] calls, oldest first; results are dropped. *)
Fixpoint Execute_all (cs : list call) (cb : CircuitBreaker) (w : World)
  : option (CircuitBreaker * World) :=
  match cs with
  | [] => Some (cb, w)
  | c :: cs => '(_, _, cb, w) ← Execute c cb w; Execute_all cs cb w
  end.

End Breaker.

Arguments Config : clear implicits.
Arguments CircuitBreaker : clear implicits.
Arguments call : clear implicits.
Arguments any : clear implicits.


(** ** registry.go

    Pointers and maps are references into a heap: a [*CircuitBreaker] is
    the address of a breaker, a [map[string]*CircuitBreaker] the address of
    a map object. Allocation takes the next free address. *)

Abbreviation ref := nat.

Section Registry.

Context {V : Type}.

Record Heap := mkHeap {
  breakers_at : list (CircuitBreaker V);
  maps_at : list (gmap string ref)
}.

(** [&CircuitBreaker{...}] *)
Definition alloc_breaker (cb : CircuitBreaker V) (h : Heap) : ref * Heap :=
  (length (breakers_at h), mkHeap (breakers_at h ++ [cb]) (maps_at h)).

(** [make(map[string]*CircuitBreaker)] *)
Definition make_map (h : Heap) : ref * Heap :=
  (length (maps_at h), mkHeap (breakers_at h) (maps_at h ++ [∅])).

(** [v, ok := m[k]] *)
Definition map_load (h : Heap) (m : ref) (k : string) : option (option ref) :=
  mv ← maps_at h !! m; Some (mv !! k).

(** [m[k] = v] *)
Definition map_store (h : Heap) (m : ref) (k : string) (v : ref) : option Heap :=
  mv ← maps_at h !! m;
  Some (mkHeap (breakers_at h) (<[m := <[k := v]> mv]> (maps_at h))).

(** [delete(m, k)] *)
Definition map_delete (h : Heap) (m : ref) (k : string) : option Heap :=
  mv ← maps_at h !! m;
  Some (mkHeap (breakers_at h) (<[m := delete k mv]> (maps_at h))).

Record Registry := mkRegistry {
  breakers : ref;
  defaultCfg : Config V
}.

Definition NewRegistry (defaultCfg : Config V) (h : Heap) : Registry * Heap :=
  let '(m, h) := make_map h in
  (mkRegistry m defaultCfg, h).

(** [cfg.Name = name] *)
Definition set_Name (name : string) (c : Config V) : Config V :=
  mkConfig name (WindowSize c) (FailureThreshold c) (MinRequests c)
    (RecoveryTimeout c) (ProbeCount c) (Fallback c) (OnStateChange c).

Definition Get (r : Registry) (name : string) (h : Heap) (w : World)
  : option (ref * Heap * World) :=
  (* under the read lock *)
  found ← map_load h (breakers r) name;
  match found with
  | Some cb => Some (cb, h, w)
  | None =>
      (* under the write lock: double-check *)
      found ← map_load h (breakers r) name;
      match found with
      | Some cb => Some (cb, h, w)
      | None =>
          let cfg := defaultCfg r in
          let cfg := set_Name name cfg in
          let '(cb, w) := New cfg w in
          let '(cb, h) := alloc_breaker cb h in
          h ← map_store h (breakers r) name cb;
          Some (cb, h, w)
      end
  end.

Definition GetWithConfig (r : Registry) (name : string) (cfg : Config V)
    (h : Heap) (w : World) : option (ref * Heap * World) :=
  found ← map_load h (breakers r) name;
  match found with
  | Some cb => Some (cb, h, w)
  | None =>
      found ← map_load h (breakers r) name;
      match found with
      | Some cb => Some (cb, h, w)
      | None =>
          let cfg := set_Name name cfg in
          let '(cb, w) := New cfg w in
          let '(cb, h) := alloc_breaker cb h in
          h ← map_store h (breakers r) name cb;
          Some (cb, h, w)
      end
  end.

(** [All]: the [range] loop visits the entries in some order. *)
Definition All (r : Registry) (h : Heap) : option (ref * Heap) :=
  mv ← maps_at h !! breakers r;
  let '(out, h) := make_map h in
  h ← foldr (λ kv acc, h ← acc; map_store h out kv.1 kv.2) (Some h)
        (map_to_list mv);
  Some (out, h).

End Registry.

Arguments Heap : clear implicits.
Arguments Registry : clear implicits.

(** * Vocabulary of the properties *)

(** ** Windows and histories *)

(** The last [k] elements of a history. *)
Definition last_n {A} (k : nat) (l : list A) : list A :=
  drop (length l - k)%nat l.

Definition failures_in (l : list outcome) : Z :=
  Z.of_nat (length (filter (λ o, o = failure) l)).

(** The outcomes the window currently holds, oldest first. Slots at and
    beyond [count] are stale (zero values or leftovers from before a
    [reset]) until the buffer has filled up. *)
Definition live (w : slidingWindow) : list outcome :=
  if count w <? Go.len (buf w)
  then take (Z.to_nat (count w)) (buf w)
  else drop (Z.to_nat (pos w)) (buf w) ++ take (Z.to_nat (pos w)) (buf w).

(** [window_inv cap os w]: [w] has capacity [cap] and has been fed the
    history [os] since it was created or last reset. *)
Record window_inv (cap : Z) (os : list outcome) (w : slidingWindow) : Prop := {
  inv_cap : Go.len (buf w) = cap;
  inv_cap_range : 1 <= cap <= Go.max_int;
  inv_count : count w = Z.min cap (Go.len os);
  inv_pos : pos w = Go.len os mod cap;
  inv_live : live w = last_n (Z.to_nat (count w)) os;
  inv_fails : fails w = failures_in (live w)
}.

(** What can be done to a tracker, and the history a run of such
    operations leaves to be reported: the outcomes since the last reset. *)
Inductive tracker_op := DoRecord (o : outcome) | DoReset.

Fixpoint run_tracker (ops : list tracker_op) (w : slidingWindow)
  : option slidingWindow :=
  match ops with
  | [] => Some w
  | DoRecord o :: ops => w ← record o w; run_tracker ops w
  | DoReset :: ops => run_tracker ops (reset w)
  end.

Fixpoint since_reset (seen : list outcome) (ops : list tracker_op) : list outcome :=
  match ops with
  | [] => seen
  | DoRecord o :: ops => since_reset (seen ++ [o]) ops
  | DoReset :: ops => since_reset [] ops
  end.

(** ** Breakers, calls and registries *)

Section Vocabulary.

Context {V : Type}.
Implicit Types (cb : CircuitBreaker V) (w : World) (c : call V).
Implicit Types (r : Registry V) (h : Heap V) (m : gmap string ref).

(** The five substitutions of [withDefaults], one at a time. *)
Definition default_WindowSize (k : Config V) : Config V :=
  if WindowSize k <=? 0
  then mkConfig (Name k) 20 (FailureThreshold k) (MinRequests k)
         (RecoveryTimeout k) (ProbeCount k) (Fallback k) (OnStateChange k)
  else k.
Definition default_FailureThreshold (k : Config V) : Config V :=
  if Go.fle (FailureThreshold k) Go.fzero
  then mkConfig (Name k) (WindowSize k) 0.5%float (MinRequests k)
         (RecoveryTimeout k) (ProbeCount k) (Fallback k) (OnStateChange k)
  else k.
Definition default_MinRequests (k : Config V) : Config V :=
  if MinRequests k <=? 0
  then mkConfig (Name k) (WindowSize k) (FailureThreshold k) 5
         (RecoveryTimeout k) (ProbeCount k) (Fallback k) (OnStateChange k)
  else k.
Definition default_RecoveryTimeout (k : Config V) : Config V :=
  if RecoveryTimeout k <=? 0
  then mkConfig (Name k) (WindowSize k) (FailureThreshold k) (MinRequests k)
         (30 * Second) (ProbeCount k) (Fallback k) (OnStateChange k)
  else k.
Definition default_ProbeCount (k : Config V) : Config V :=
  if ProbeCount k <=? 0
  then mkConfig (Name k) (WindowSize k) (FailureThreshold k) (MinRequests k)
         (RecoveryTimeout k) 3 (Fallback k) (OnStateChange k)
  else k.

(** The history a breaker's window stands for, and the ranges that come
    with a configuration built by [New] from Go [int]s. *)
Record breaker_inv (os : list outcome) cb : Prop := {
  binv_size : 1 <= WindowSize (cfg cb) <= Go.max_int;
  binv_probes : 1 <= ProbeCount (cfg cb) <= Go.max_int;
  binv_window : window_inv (WindowSize (cfg cb)) os (window cb);
  binv_probe :
    match state cb with
    | StateHalfOpen => 0 <= probeSuccesses cb < ProbeCount (cfg cb)
    | _ => probeSuccesses cb = 0
    end
}.

Definition well_formed cb : Prop := ∃ os, breaker_inv os cb.

(** A configuration whose integer fields are Go [int]s. *)
Definition in_range (c : Config V) : Prop :=
  WindowSize c <= Go.max_int ∧ ProbeCount c <= Go.max_int.

(** The events of one effective transition. *)
Definition transition_events cb (to : State) : list event :=
  Warn "circuit breaker state change" (Name (cfg cb))
    (State_String (state cb)) (State_String to)
  :: match OnStateChange (cfg cb) with
     | Some _ => [StateChanged (Name (cfg cb)) (state cb) to]
     | None => []
     end.

(** The condition under which a Closed breaker trips. *)
Definition trips (k : Config V) (win : slidingWindow) : bool :=
  (total win >=? MinRequests k) && Go.fge (failureRate win) (FailureThreshold k).

(** [setState(StateOpen); openedAt = now()] from another state. *)
Definition opened cb w : CircuitBreaker V * World :=
  (set_openedAt (clock w (S (reads w)))
     (set_lastStateChange (clock w (reads w)) (set_state StateOpen cb)),
   mkWorld (clock w) (S (S (reads w)))
     (trace w ++ transition_events cb StateOpen)).

(** [setState(to)] from another state, as a pair. *)
Definition moved (to : State) cb w : CircuitBreaker V * World :=
  (set_lastStateChange (clock w (reads w)) (set_state to cb),
   mkWorld (clock w) (S (reads w)) (trace w ++ transition_events cb to)).

(** What the three critical sections leave untouched when the state they
    end in is the state they started in. *)
Definition quiet cb w cb' w' : Prop :=
  state cb' = state cb ->
  trace w' = trace w ∧ lastStateChange cb' = lastStateChange cb.

(** The breaker once [Execute] has counted the request. *)
Definition counted cb : CircuitBreaker V :=
  set_totalRequests (Go.add (totalRequests cb) 1) cb.

(** Whether [Execute] leaves the outcome of [c] out of the books. *)
Definition excluded c : bool := not_nil (fn_err c) && not_nil (ctx_Err c).


(** A success of the operation. *)
Definition recorded_success c : Prop := not_nil (fn_err c) = false.

(** The events a step has appended to the trace. *)
Definition new_events w w' : list event := drop (length (trace w)) (trace w').



(** The outcome [afterCall] records for a call. *)
Definition outcome_of c : outcome := if not_nil (fn_err c) then failure else success.

(** What can be done to a breaker: the two critical sections of a call,
    a whole call, and the two queries. *)
Inductive operation :=
| Admission
| Outcome (err : error)
| Call (c : call V)
| QueryState
| QueryMetrics.

Definition perform (o : operation) cb w : option (CircuitBreaker V * World) :=
  match o with
  | Admission => let '(_, cb, w) := beforeCall cb w in Some (cb, w)
  | Outcome err => afterCall err cb w
  | Call c => '(_, _, cb, w) ← Execute c cb w; Some (cb, w)
  | QueryState => let '(_, cb, w) := State_ cb w in Some (cb, w)
  | QueryMetrics => let _ := Metrics cb in Some (cb, w)
  end.

(** A run of operations before and after each of which the breaker is
    Open or HalfOpen. *)
Inductive stays_tripped : CircuitBreaker V -> World -> list operation ->
                          CircuitBreaker V -> World -> Prop :=
| tripped_done cb w :
    state cb ≠ StateClosed -> stays_tripped cb w [] cb w
| tripped_step cb w o cb1 w1 os cb' w' :
    state cb ≠ StateClosed ->
    perform o cb w = Some (cb1, w1) ->
    stays_tripped cb1 w1 os cb' w' ->
    stays_tripped cb w (o :: os) cb' w'.

(** The window after a step from a state other than Closed: untouched, or
    reset if the step has closed the breaker. *)
Definition frozen_or_reset cb cb' : Prop :=
  match state cb' with
  | StateClosed =>
      window cb' = reset (window cb) ∧ total (window cb') = 0 ∧
      WindowFailureRate (Metrics cb') = Go.fzero
  | _ =>
      window cb' = window cb ∧
      WindowFailureRate (Metrics cb') = WindowFailureRate (Metrics cb)
  end.

(** Whether [Execute c] on [cb] admits the call. *)
Definition admits cb w : bool := negb (not_nil (beforeCall (counted cb) w).1.1).






(** A request to the registry, by either entry point. *)
Inductive request :=
| ReqGet (name : string)
| ReqGetWithConfig (name : string) (cfg : Config V).

Definition request_name (q : request) : string :=
  match q with ReqGet n => n | ReqGetWithConfig n _ => n end.

(** The configuration a request would build its breaker from. *)
Definition request_config r (q : request) : Config V :=
  match q with
  | ReqGet n => set_Name n (defaultCfg r)
  | ReqGetWithConfig n c => set_Name n c
  end.

Definition serve r (q : request) h w : option (ref * Heap V * World) :=
  match q with
  | ReqGet n => Get r n h w
  | ReqGetWithConfig n c => GetWithConfig r n c h w
  end.

(** A sequence of requests, oldest first, with the pointers they return. *)
Fixpoint serve_all r (qs : list request) h w
  : option (list ref * Heap V * World) :=
  match qs with
  | [] => Some ([], h, w)
  | q :: qs =>
      '(p, h, w) ← serve r q h w;
      '(ps, h, w) ← serve_all r qs h w;
      Some (p :: ps, h, w)
  end.

(** The heap after a first access by [q]. *)
Definition registered r (q : request) h w : ref * Heap V * World :=
  (length (breakers_at h),
   mkHeap (breakers_at h ++ [(New (request_config r q) w).1])
     (<[breakers r :=
          <[request_name q := length (breakers_at h)]>
            (default ∅ (maps_at h !! breakers r))]> (maps_at h)),
   (New (request_config r q) w).2).

(** How far a request has got: it runs in two critical sections, the
    lookup under the read lock and, if that found nothing, the second
    lookup and the insertion under the write lock. *)
Inductive progress :=
| Pending (q : request)               (* not started *)
| Missed (q : request)                (* read lock released, nothing found *)
| Returned (q : request) (p : ref).   (* done *)

(** The section under [r.mu.RLock()]. *)
Definition read_section r (q : request) h : option progress :=
  found ← map_load h (breakers r) (request_name q);
  Some (match found with Some p => Returned q p | None => Missed q end).

(** The section under [r.mu.Lock()]. *)
Definition write_section r (q : request) h w : option (ref * Heap V * World) :=
  found ← map_load h (breakers r) (request_name q);
  match found with
  | Some cb => Some (cb, h, w)
  | None =>
      let '(cb, w) := New (request_config r q) w in
      let '(cb, h) := alloc_breaker cb h in
      h ← map_store h (breakers r) (request_name q) cb;
      Some (cb, h, w)
  end.

(** One critical section of one request. *)
Definition advance r (t : progress) h w : option (progress * Heap V * World) :=
  match t with
  | Pending q => t' ← read_section r q h; Some (t', h, w)
  | Missed q => '(p, h, w) ← write_section r q h w; Some (Returned q p, h, w)
  | Returned q p => Some (Returned q p, h, w)
  end.

(** A schedule names, step by step, the request that runs its next
    section; a name outside the pool is skipped. *)
Fixpoint run_schedule r (sched : list nat) (ts : list progress) h w
  : option (list progress * Heap V * World) :=
  match sched with
  | [] => Some (ts, h, w)
  | i :: sched =>
      match ts !! i with
      | Some t =>
          '(t', h, w) ← advance r t h w;
          run_schedule r sched (<[i := t']> ts) h w
      | None => run_schedule r sched ts h w
      end
  end.

(** A change the holder of a map makes to it. *)
Inductive mutation := Put (k : string) (v : ref) | Remove (k : string).

Definition mutate (o : ref) (mu : mutation) h : option (Heap V) :=
  match mu with
  | Put k v => map_store h o k v
  | Remove k => map_delete h o k
  end.

Fixpoint mutate_all (o : ref) (mus : list mutation) h : option (Heap V) :=
  match mus with
  | [] => Some h
  | mu :: mus => h ← mutate o mu h; mutate_all o mus h
  end.

(** A run of operations, oldest first. *)
Fixpoint perform_all (ops : list operation) cb w
  : option (CircuitBreaker V * World) :=
  match ops with
  | [] => Some (cb, w)
  | o :: ops => '(cb, w) ← perform o cb w; perform_all ops cb w
  end.

(** The four arrows of the state machine. *)
Definition legal (from to : State) : bool :=
  match from, to with
  | StateClosed, StateOpen
  | StateOpen, StateHalfOpen
  | StateHalfOpen, StateOpen
  | StateHalfOpen, StateClosed => true
  | _, _ => false
  end.

(** What a breaker configured with [k] logs, and tells its callback if it
    has one, when it moves from one state to another. *)
Definition transition_log (k : Config V) (from to : State) : list event :=
  Warn "circuit breaker state change" (Name k) (State_String from) (State_String to)
  :: match OnStateChange k with
     | Some _ => [StateChanged (Name k) from to]
     | None => []
     end.

(** [follows k s evs s']: read from state [s], the events [evs] are the
    record of a legal run of the state machine that ends in [s']: each
    transition is one of the four arrows and starts where the previous one
    ended, the operation is invoked only outside Open, and the fallback is
    called only in Open, with [ErrCircuitOpen]. *)
Inductive follows (k : Config V) : State -> list event -> State -> Prop :=
| follows_done s : follows k s [] s
| follows_call s evs s' :
    s ≠ StateOpen -> follows k s evs s' -> follows k s (Invoked :: evs) s'
| follows_fallback evs s' :
    follows k StateOpen evs s' ->
    follows k StateOpen (FellBack (Some ErrCircuitOpen) :: evs) s'
| follows_move s t evs s' :
    legal s t = true -> follows k t evs s' ->
    follows k s (transition_log k s t ++ evs) s'.

(** The first request of a sequence that asks for [name]. *)
Fixpoint first_for (name : string) (qs : list request) : option request :=
  match qs with
  | [] => None
  | q :: qs =>
      if bool_decide (request_name q = name) then Some q else first_for name qs
  end.

(** What the map and the heap of a registry record about the requests
    served so far. *)
Definition remembers r (served : list request) h (m : gmap string ref) : Prop :=
  maps_at h !! breakers r = Some m ∧
  (∀ name p, m !! name = Some p ->
     ∃ q0 w0, first_for name served = Some q0 ∧
       breakers_at h !! p = Some (New (request_config r q0) w0).1) ∧
  (∀ name, m !! name = None -> first_for name served = None).

(** Events that are neither an invocation of the operation nor a call of
    the fallback. *)
Definition only_transitions (evs : list event) : Prop :=
  Forall (λ e, e ≠ Invoked ∧ ∀ x, e ≠ FellBack x) evs.

(** The untyped call that [Execute[T]] hands to [Execute]. *)
Definition untyped {T : Type} (box : T -> V) (c : typed_call T) : call V :=
  mkCall (Some (box (typed_result c))) (typed_err c) (typed_ctx_Err c).

End Vocabulary.

(** ** Fixtures, after breaker_test.go and registry_test.go *)

(** [errBoom], [succeedFn], [failFn] and a call given up by its caller. *)
Definition errBoom : error := Some (errors_New "boom").
Definition succeedFn : call string := mkCall (Some "ok"%string) None None.
Definition failFn : call string := mkCall None errBoom None.
Definition cancelledFn : call string :=
  mkCall None (Some context_Canceled) (Some context_Canceled).

(** The configuration of the "Closed→Open" test, with a callback. *)
Definition test_config : Config string :=
  mkConfig "test" 10 0.5%float 5 0 0 None (Some ()).

(** A clock that advances by one second at every reading. *)
Definition test_world : World :=
  mkWorld (λ n, 1700000000 * Second + Z.of_nat n * Second) 0 [].

Definition test_breaker : CircuitBreaker string := (New test_config test_world).1.
Definition test_world' : World := (New test_config test_world).2.

(** The test breaker, tripped by five failures. *)
Definition tripped_breaker : CircuitBreaker string :=
  match Execute_all (replicate 5 failFn) test_breaker test_world' with
  | Some (cb, w) => cb
  | None => test_breaker
  end.

(** The test breaker, tripped by five failures and queried a hundred clock
    readings later: HalfOpen, no probe counted yet. *)
Definition half_open_breaker : CircuitBreaker string :=
  match Execute_all (replicate 5 failFn) test_breaker test_world' with
  | Some (cb, w) => (State_ cb (mkWorld (clock w) 100 (trace w))).1.2
  | None => test_breaker
  end.

(** The test configuration with a threshold of 1.5. *)
Definition overshoot_config : Config string :=
  mkConfig "test" 10 1.5%float 5 0 0 None (Some ()).

(** A registry on an empty heap, as [NewRegistry] builds it. *)
Definition empty_heap : Heap string := mkHeap [] [].
Definition test_registry : Registry string := (NewRegistry test_config empty_heap).1.
Definition test_heap : Heap string := (NewRegistry test_config empty_heap).2.

(** The test configuration with a fallback that answers a rejection with
    no value and no error, and its breaker tripped by five failures. *)
Definition silent_fallback_config : Config string :=
  mkConfig "test" 10 0.5%float 5 0 0 (Some (λ _, (None, None))) None.

Definition silenced_breaker : CircuitBreaker string :=
  match Execute_all (replicate 5 failFn)
          (New silent_fallback_config test_world).1
          (New silent_fallback_config test_world).2 with
  | Some (cb, w) => cb
  | None => test_breaker
  end.

(** * Properties *)

Example ring_overwrites :
  record_all (replicate 5 failure ++ replicate 5 success) (newSlidingWindow 5)
  = Some (mkWindow (replicate 5 success) 0 5 0).
Proof. reflexivity. Qed.

(** ** Machine arithmetic within range *)

Lemma wrap_small z : Go.min_int <= z <= Go.max_int -> Go.wrap z = z.
Proof.
  unfold Go.wrap, Go.min_int, Go.max_int. intros H.
  rewrite Z.mod_small; lia.
Qed.

Lemma wrap_range z : Go.min_int <= Go.wrap z <= Go.max_int.
Proof.
  unfold Go.wrap, Go.min_int, Go.max_int.
  pose proof (Z.mod_pos_bound (z + 2 ^ 63) (2 ^ 64) ltac:(lia)). lia.
Qed.

(** ** The sliding window holds the most recent outcomes *)

Lemma failures_in_app l1 l2 :
  failures_in (l1 ++ l2) = failures_in l1 + failures_in l2.
Proof. unfold failures_in. rewrite filter_app, length_app. lia. Qed.

Lemma failures_in_cons o l :
  failures_in (o :: l) = (if bool_decide (o = failure) then 1 else 0) + failures_in l.
Proof.
  unfold failures_in. rewrite filter_cons.
  case_bool_decide; case_decide; try done; simpl; lia.
Qed.

Lemma failures_in_nil : failures_in [] = 0.
Proof. reflexivity. Qed.

Lemma failures_in_bounds l : 0 <= failures_in l <= Go.len l.
Proof.
  unfold failures_in, Go.len. pose proof (length_filter (λ o, o = failure) l). lia.
Qed.

Lemma last_n_all {A} (k : nat) (l : list A) :
  (length l <= k)%nat -> last_n k l = l.
Proof. intros H. unfold last_n. replace (length l - k)%nat with 0%nat by lia. done. Qed.

Lemma length_last_n {A} (k : nat) (l : list A) :
  length (last_n k l) = Nat.min k (length l).
Proof. unfold last_n. rewrite length_drop. lia. Qed.

Lemma last_n_snoc_full {A} (k : nat) (l : list A) (x : A) :
  (k <= length l)%nat -> (1 <= k)%nat ->
  last_n k (l ++ [x]) = drop 1 (last_n k l) ++ [x].
Proof.
  intros Hk H1. unfold last_n. rewrite drop_drop, length_app. simpl.
  rewrite drop_app_le by lia. f_equal. f_equal. lia.
Qed.

Lemma live_empty w : count w = 0 -> 1 <= Go.len (buf w) -> live w = [].
Proof.
  intros Hc Hl. unfold live. rewrite Hc.
  destruct (Z.ltb_spec 0 (Go.len (buf w))); [done|lia].
Qed.

Lemma new_window_inv size :
  1 <= size <= Go.max_int -> window_inv size [] (newSlidingWindow size).
Proof.
  intros H. unfold newSlidingWindow.
  destruct (Z.leb_spec size 0); [lia|].
  assert (Hl : Go.len (replicate (Z.to_nat size) failure) = size).
  { unfold Go.len. rewrite length_replicate. lia. }
  split; cbn [buf pos count fails]; rewrite ?live_empty; cbn [buf pos count fails];
    rewrite ?Hl; try done; try lia.
  unfold Go.len. cbn [length]. lia.
Qed.

Lemma reset_window_inv cap os w :
  window_inv cap os w -> window_inv cap [] (reset w).
Proof.
  intros [Hc Hr _ _ _ _]. unfold reset.
  split; cbn [buf pos count fails]; rewrite ?live_empty; cbn [buf pos count fails];
    try done; try lia.
  unfold Go.len. cbn [length]. lia.
Qed.

Ltac window_simpl :=
  unfold set_pos, set_fails, set_buf, set_count;
  cbn [mbind option_bind andb buf pos count fails].

Ltac int_range := unfold Go.max_int, Go.min_int in *; lia.

(** What one [record] does, free of the machine-level detail, when the
    indices are in range: before the buffer has filled up ... *)
Lemma record_filling o w :
  count w ≠ Go.len (buf w) ->
  0 <= pos w < Go.len (buf w) ->
  0 <= count w < Go.max_int -> 0 <= fails w < Go.max_int ->
  Go.len (buf w) <= Go.max_int ->
  record o w =
  Some (mkWindow (<[Z.to_nat (pos w) := o]> (buf w))
                 ((pos w + 1) mod Go.len (buf w))
                 (count w + 1)
                 (fails w + (if bool_decide (o = failure) then 1 else 0))).
Proof.
  intros Hne Hp Hc Hf Hl. unfold record.
  destruct (Z.eqb_spec (count w) (Go.len (buf w))) as [|_]; [done|].
  window_simpl. unfold Go.store.
  destruct (Z.leb_spec 0 (pos w)); [|lia].
  destruct (Z.ltb_spec (pos w) (Go.len (buf w))); [|lia].
  window_simpl.
  assert (Hlen : Go.len (<[Z.to_nat (pos w) := o]> (buf w)) = Go.len (buf w)).
  { unfold Go.len. by rewrite length_insert. }
  unfold Go.add.
  case_bool_decide; window_simpl; rewrite Hlen; unfold Go.rem;
    (destruct (Z.eqb_spec (Go.len (buf w)) 0); [lia|]);
    window_simpl; rewrite !wrap_small by int_range;
    rewrite Z.rem_mod_nonneg by lia; do 2 f_equal; lia.
Qed.

(** ... and once it is full, when the slot at the cursor is evicted. *)
Lemma record_full o w old :
  count w = Go.len (buf w) ->
  0 <= pos w < Go.len (buf w) ->
  buf w !! Z.to_nat (pos w) = Some old ->
  0 <= fails w - (if bool_decide (old = failure) then 1 else 0) < Go.max_int ->
  Go.len (buf w) <= Go.max_int ->
  record o w =
  Some (mkWindow (<[Z.to_nat (pos w) := o]> (buf w))
                 ((pos w + 1) mod Go.len (buf w))
                 (count w)
                 (fails w - (if bool_decide (old = failure) then 1 else 0)
                          + (if bool_decide (o = failure) then 1 else 0))).
Proof.
  intros He Hp Hold Hf Hl. unfold record.
  destruct (Z.eqb_spec (count w) (Go.len (buf w))) as [_|]; [|done].
  unfold Go.index, Go.store.
  destruct (Z.leb_spec 0 (pos w)); [|lia].
  destruct (Z.ltb_spec (pos w) (Go.len (buf w))) as [Hlt|]; [|lia].
  window_simpl. rewrite Hold. window_simpl.
  assert (Hlen : Go.len (<[Z.to_nat (pos w) := o]> (buf w)) = Go.len (buf w)).
  { unfold Go.len. by rewrite length_insert. }
  unfold Go.add, Go.sub.
  do 2 case_bool_decide; window_simpl;
    (destruct (Z.leb_spec 0 (pos w)); [|lia]);
    (destruct (Z.ltb_spec (pos w) (Go.len (buf w))); [|lia]);
    window_simpl; rewrite Hlen; unfold Go.rem;
    (destruct (Z.eqb_spec (Go.len (buf w)) 0); [lia|]);
    window_simpl;
    rewrite ?(wrap_small (fails w - 1)) by int_range;
    rewrite ?wrap_small by int_range;
    rewrite Z.rem_mod_nonneg by lia; do 2 f_equal; lia.
Qed.

(** Overwriting the slot at the cursor of a full ring and advancing the
    cursor drops the oldest element and appends the new one. *)
Lemma ring_step {A} (b : list A) (p : nat) (o old : A) :
  b !! p = Some old ->
  let p' := (S p mod length b)%nat in
  drop p' (<[p:=o]> b) ++ take p' (<[p:=o]> b)
  = drop 1 (drop p b ++ take p b) ++ [o].
Proof.
  intros Hold p'. pose proof (lookup_lt_Some _ _ _ Hold) as Hlt.
  rewrite (drop_S _ _ _ Hold). cbn [drop app]. rewrite drop_0.
  assert (Hins : <[p:=o]> b !! p = Some o) by (by apply list_lookup_insert_eq).
  assert (Htake : take (S p) (<[p:=o]> b) = take p b ++ [o]).
  { rewrite (take_S_r _ _ _ Hins). by rewrite take_insert_ge. }
  destruct (decide (S p = length b)) as [Heq|Hne].
  - subst p'. rewrite Heq, Nat.Div0.mod_same. cbn [drop take].
    rewrite app_nil_r. rewrite (drop_ge b) by lia. cbn [app].
    rewrite <- Htake, drop_0. symmetry. apply take_ge. rewrite length_insert. lia.
  - subst p'. rewrite Nat.mod_small by lia.
    rewrite drop_insert_lt by lia. rewrite Htake. by rewrite app_assoc.
Qed.

(** One [record] on a well-formed window never panics and extends the
    history it represents. *)
Lemma record_inv cap os w o :
  window_inv cap os w ->
  ∃ w', record o w = Some w' ∧ window_inv cap (os ++ [o]) w'.
Proof.
  intros [Hcap Hr Hcnt Hpos Hlive Hfails].
  pose proof (failures_in_bounds (live w)) as Hfb.
  assert (Hlen : length (buf w) = Z.to_nat cap) by (unfold Go.len in Hcap; lia).
  assert (Hlen' : Go.len (os ++ [o]) = Go.len os + 1).
  { unfold Go.len. rewrite length_app. cbn [length]. lia. }
  assert (Hlive_len : Go.len (live w) = count w).
  { rewrite Hlive. unfold Go.len. rewrite length_last_n.
    unfold Go.len in Hcnt. lia. }
  destruct (Z.lt_ge_cases (Go.len os) cap) as [Hlt|Hge].
  - (* the buffer is still filling up *)
    assert (Hc : count w = Go.len os) by lia.
    assert (Hp : pos w = Go.len os).
    { rewrite Hpos, Z.mod_small; unfold Go.len in *; lia. }
    assert (Htk : take (length os) (buf w) = os).
    { unfold live in Hlive. rewrite Hcap, Hc in Hlive.
      destruct (Z.ltb_spec (Go.len os) cap); [|lia].
      unfold Go.len in Hlive. rewrite Nat2Z.id in Hlive.
      rewrite Hlive. apply last_n_all. lia. }
    eexists. split.
    { apply record_filling; rewrite ?Hcap; unfold Go.len in *; int_range. }
    assert (Hins : take (S (length os)) (<[length os:=o]> (buf w)) = os ++ [o]).
    { rewrite (take_S_r _ _ o).
      - by rewrite take_insert_ge, Htk.
      - apply list_lookup_insert_eq. unfold Go.len in Hlt. lia. }
    assert (Hlv : live (mkWindow (<[Z.to_nat (pos w):=o]> (buf w))
                          ((pos w + 1) mod Go.len (buf w)) (count w + 1)
                          (fails w + (if bool_decide (o = failure) then 1 else 0)))
                  = os ++ [o]).
    { unfold live. cbn [buf pos count fails].
      replace (Go.len (<[Z.to_nat (pos w):=o]> (buf w))) with cap
        by (unfold Go.len; rewrite length_insert; unfold Go.len in Hcap; lia).
      rewrite Hp, Hc, Hcap. unfold Go.len. rewrite Nat2Z.id.
      replace (Z.to_nat (Z.of_nat (length os) + 1)) with (S (length os)) by lia.
      destruct (Z.ltb_spec (Z.of_nat (length os) + 1) cap) as [Hlt'|Hge']; [done|].
      assert (Z.of_nat (length os) + 1 = cap) as Hfull by (unfold Go.len in Hlt; lia).
      rewrite Hfull, Z.mod_same by lia. cbn [Z.to_nat drop take].
      rewrite app_nil_r, drop_0. rewrite <- Hins. symmetry. apply take_ge.
      rewrite length_insert. lia. }
    split; rewrite ?Hlv; cbn [buf pos count fails].
    + unfold Go.len. rewrite length_insert. exact Hcap.
    + done.
    + rewrite Hlen'. lia.
    + rewrite Hlen', Hcap, Hp. done.
    + rewrite last_n_all; [done|]. rewrite length_app. cbn [length].
      unfold Go.len in Hc. lia.
    + rewrite failures_in_app, failures_in_cons, failures_in_nil.
      rewrite Hfails. unfold live. rewrite Hcap, Hc.
      destruct (Z.ltb_spec (Go.len os) cap); [|lia].
      unfold Go.len. rewrite Nat2Z.id, Htk. lia.
  - (* the buffer is full: the slot at the cursor is the oldest outcome *)
    assert (Hc : count w = cap) by lia.
    assert (Hpr : 0 <= pos w < cap) by (rewrite Hpos; apply Z.mod_pos_bound; lia).
    assert (Hlv0 : live w = drop (Z.to_nat (pos w)) (buf w) ++ take (Z.to_nat (pos w)) (buf w)).
    { unfold live. rewrite Hcap, Hc. destruct (Z.ltb_spec cap cap); [lia|done]. }
    destruct (lookup_lt_is_Some_2 (buf w) (Z.to_nat (pos w))) as [old Hold]; [lia|].
    assert (Hhd : live w = old :: drop 1 (live w)).
    { rewrite Hlv0. rewrite (drop_S _ _ _ Hold). cbn [app drop]. by rewrite drop_0. }
    assert (Hfl : fails w = (if bool_decide (old = failure) then 1 else 0)
                            + failures_in (drop 1 (live w))).
    { rewrite Hfails at 1. rewrite Hhd at 1. apply failures_in_cons. }
    pose proof (failures_in_bounds (drop 1 (live w))) as Hfb'.
    assert (Hd1 : Go.len (drop 1 (live w)) = cap - 1).
    { unfold Go.len in *. rewrite length_drop. lia. }
    eexists. split.
    { apply (record_full o w old); rewrite ?Hcap; try done; int_range. }
    assert (Hlv : live (mkWindow (<[Z.to_nat (pos w):=o]> (buf w))
                          ((pos w + 1) mod Go.len (buf w)) (count w)
                          (fails w - (if bool_decide (old = failure) then 1 else 0)
                           + (if bool_decide (o = failure) then 1 else 0)))
                  = drop 1 (live w) ++ [o]).
    { unfold live at 1. cbn [buf pos count fails].
      replace (Go.len (<[Z.to_nat (pos w):=o]> (buf w))) with cap
        by (unfold Go.len; rewrite length_insert; unfold Go.len in Hcap; lia).
      rewrite Hc, Hcap. destruct (Z.ltb_spec cap cap); [lia|].
      replace (Z.to_nat ((pos w + 1) mod cap))
        with (S (Z.to_nat (pos w)) mod length (buf w))%nat.
      - rewrite Hlv0. by apply (ring_step _ _ _ old).
      - rewrite Hlen. rewrite <- Z2Nat.inj_succ by lia.
        rewrite <- Z2Nat.inj_mod by lia. f_equal. }
    split; rewrite ?Hlv; cbn [buf pos count fails].
    + unfold Go.len. rewrite length_insert. exact Hcap.
    + done.
    + rewrite Hlen'. lia.
    + rewrite Hlen', Hcap, Hpos. rewrite Zplus_mod_idemp_l. done.
    + rewrite Hc. rewrite last_n_snoc_full by (unfold Go.len in Hge; lia).
      f_equal. f_equal. rewrite Hlive, Hc. done.
    + rewrite failures_in_app, failures_in_cons, failures_in_nil. lia.
Qed.

Lemma record_all_inv cap os0 os w :
  window_inv cap os0 w ->
  ∃ w', record_all os w = Some w' ∧ window_inv cap (os0 ++ os) w'.
Proof.
  revert os0 w. induction os as [|o os IH]; intros os0 w Hinv.
  - exists w. by rewrite app_nil_r.
  - destruct (record_inv _ _ _ o Hinv) as (w1 & Hrec & Hinv1).
    destruct (IH _ _ Hinv1) as (w2 & Hall & Hinv2).
    exists w2. cbn [record_all]. rewrite Hrec. cbn [mbind option_bind].
    split; [done|]. by rewrite <- app_assoc in Hinv2.
Qed.

Lemma window_inv_bounds cap os w :
  window_inv cap os w -> 0 <= fails w <= count w ∧ count w <= Go.len (buf w).
Proof.
  intros [Hcap Hr Hcnt Hpos Hlive Hfails].
  pose proof (failures_in_bounds (live w)) as Hfb.
  assert (Go.len (live w) = count w).
  { rewrite Hlive. unfold Go.len in *. rewrite length_last_n. lia. }
  lia.
Qed.

Lemma run_tracker_inv cap seen ops w :
  window_inv cap seen w ->
  ∃ w', run_tracker ops w = Some w' ∧ window_inv cap (since_reset seen ops) w'.
Proof.
  revert seen w. induction ops as [|[o|] ops IH]; intros seen w Hinv.
  - by exists w.
  - destruct (record_inv _ _ _ o Hinv) as (w1 & Hrec & Hinv1).
    destruct (IH _ _ Hinv1) as (w2 & Hrun & Hinv2).
    exists w2. cbn [run_tracker since_reset]. rewrite Hrec. done.
  - destruct (IH _ _ (reset_window_inv _ _ _ Hinv)) as (w2 & Hrun & Hinv2).
    by exists w2.
Qed.

(** C3. On a fresh tracker of capacity [size >= 1], any sequence [os] of
    [record] calls runs to completion; afterwards [total()] is
    [min(size, |os|)], the failure counter is the number of failures among
    the last [min(size, |os|)] outcomes of [os], [failureRate()] is their
    float64 quotient (and 0 when nothing was recorded), and
    [0 <= fails <= count <= capacity]. The bounds also hold after any
    sequence of [record] and [reset] calls. *)
Theorem tracker_reports_recent_history
    (size : Z) (os : list outcome) (ops : list tracker_op) :
  1 <= size <= Go.max_int ->
  (∃ w, record_all os (newSlidingWindow size) = Some w ∧
        let held := Z.min size (Go.len os) in
        let recent := last_n (Z.to_nat held) os in
        total w = held ∧
        fails w = failures_in recent ∧
        failureRate w =
          (if held =? 0 then Go.fzero
           else PrimFloat.div (Go.float64 (failures_in recent)) (Go.float64 held)) ∧
        (os = [] -> failureRate w = Go.fzero) ∧
        (0 <= fails w <= count w ∧ count w <= Go.len (buf w)) ∧
        Go.len (buf w) = size) ∧
  (∃ w, run_tracker ops (newSlidingWindow size) = Some w ∧
        total w = Z.min size (Go.len (since_reset [] ops)) ∧
        (0 <= fails w <= count w ∧ count w <= Go.len (buf w)) ∧
        Go.len (buf w) = size).
Proof.
  intros Hsize. split.
  - destruct (record_all_inv size [] os _ (new_window_inv size Hsize))
      as (w & Hrun & Hinv).
    cbn [app] in Hinv. exists w. split; [done|].
    pose proof (window_inv_bounds _ _ _ Hinv) as Hb.
    destruct Hinv as [Hcap Hr Hcnt Hpos Hlive Hfails].
    cbn zeta. unfold total.
    assert (Hf : fails w = failures_in (last_n (Z.to_nat (Z.min size (Go.len os))) os)).
    { by rewrite Hfails, Hlive, Hcnt. }
    repeat split; try done; try lia.
    + unfold failureRate. by rewrite Hf, Hcnt.
    + intros ->. unfold failureRate. rewrite Hcnt. cbn [length Go.len Z.of_nat].
      unfold Go.len. cbn [length Z.of_nat]. by rewrite Z.min_r by lia.
  - destruct (run_tracker_inv size [] ops _ (new_window_inv size Hsize))
      as (w & Hrun & Hinv).
    exists w. split; [done|].
    pose proof (window_inv_bounds _ _ _ Hinv) as Hb.
    destruct Hinv as [Hcap Hr Hcnt Hpos Hlive Hfails].
    unfold total. repeat split; try done; lia.
Qed.

Lemma tracker_reports_recent_history_witness :
  ∃ w, record_all [failure; success; failure; failure] (newSlidingWindow 3) = Some w ∧
       total w = 3 ∧ fails w = 2.
Proof.
  destruct (tracker_reports_recent_history 3 [failure; success; failure; failure]
              [DoRecord failure; DoReset])
    as [(w & Hrun & Ht & Hf & _) _].
  - unfold Go.max_int. lia.
  - exists w. split; [exact Hrun|]. split; [exact Ht|]. rewrite Hf. reflexivity.
Defined.

(** ** The breaker: frame facts and well-formedness *)

Ltac breaker_simpl :=
  unfold set_state, set_window, set_openedAt, set_lastStateChange,
    set_probeSuccesses, set_totalRequests, set_totalSuccesses,
    set_totalFailures, now, emit in *;
  cbn [cfg state window openedAt lastStateChange probeSuccesses
       totalRequests totalSuccesses totalFailures clock reads trace
       fst snd mbind option_bind] in *.

Section BreakerFacts.

Context {V : Type}.
Implicit Types (cb : CircuitBreaker V) (w : World) (c : call V).

Lemma withDefaults_steps (c : Config V) :
  withDefaults c =
  default_ProbeCount (default_RecoveryTimeout (default_MinRequests
    (default_FailureThreshold (default_WindowSize c)))).
Proof. reflexivity. Qed.

Lemma default_WindowSize_fields (k : Config V) :
  Name (default_WindowSize k) = Name k ∧
  WindowSize (default_WindowSize k) = (if WindowSize k <=? 0 then 20 else WindowSize k) ∧
  FailureThreshold (default_WindowSize k) = FailureThreshold k ∧
  MinRequests (default_WindowSize k) = MinRequests k ∧
  RecoveryTimeout (default_WindowSize k) = RecoveryTimeout k ∧
  ProbeCount (default_WindowSize k) = ProbeCount k ∧
  Fallback (default_WindowSize k) = Fallback k ∧
  OnStateChange (default_WindowSize k) = OnStateChange k.
Proof. unfold default_WindowSize. destruct (WindowSize k <=? 0); repeat split. Qed.

Lemma default_FailureThreshold_fields (k : Config V) :
  Name (default_FailureThreshold k) = Name k ∧
  WindowSize (default_FailureThreshold k) = WindowSize k ∧
  FailureThreshold (default_FailureThreshold k) = (if Go.fle (FailureThreshold k) Go.fzero then 0.5%float else FailureThreshold k) ∧
  MinRequests (default_FailureThreshold k) = MinRequests k ∧
  RecoveryTimeout (default_FailureThreshold k) = RecoveryTimeout k ∧
  ProbeCount (default_FailureThreshold k) = ProbeCount k ∧
  Fallback (default_FailureThreshold k) = Fallback k ∧
  OnStateChange (default_FailureThreshold k) = OnStateChange k.
Proof. unfold default_FailureThreshold. destruct (Go.fle (FailureThreshold k) Go.fzero); repeat split. Qed.

Lemma default_MinRequests_fields (k : Config V) :
  Name (default_MinRequests k) = Name k ∧
  WindowSize (default_MinRequests k) = WindowSize k ∧
  FailureThreshold (default_MinRequests k) = FailureThreshold k ∧
  MinRequests (default_MinRequests k) = (if MinRequests k <=? 0 then 5 else MinRequests k) ∧
  RecoveryTimeout (default_MinRequests k) = RecoveryTimeout k ∧
  ProbeCount (default_MinRequests k) = ProbeCount k ∧
  Fallback (default_MinRequests k) = Fallback k ∧
  OnStateChange (default_MinRequests k) = OnStateChange k.
Proof. unfold default_MinRequests. destruct (MinRequests k <=? 0); repeat split. Qed.

Lemma default_RecoveryTimeout_fields (k : Config V) :
  Name (default_RecoveryTimeout k) = Name k ∧
  WindowSize (default_RecoveryTimeout k) = WindowSize k ∧
  FailureThreshold (default_RecoveryTimeout k) = FailureThreshold k ∧
  MinRequests (default_RecoveryTimeout k) = MinRequests k ∧
  RecoveryTimeout (default_RecoveryTimeout k) = (if RecoveryTimeout k <=? 0 then 30 * Second else RecoveryTimeout k) ∧
  ProbeCount (default_RecoveryTimeout k) = ProbeCount k ∧
  Fallback (default_RecoveryTimeout k) = Fallback k ∧
  OnStateChange (default_RecoveryTimeout k) = OnStateChange k.
Proof. unfold default_RecoveryTimeout. destruct (RecoveryTimeout k <=? 0); repeat split. Qed.

Lemma default_ProbeCount_fields (k : Config V) :
  Name (default_ProbeCount k) = Name k ∧
  WindowSize (default_ProbeCount k) = WindowSize k ∧
  FailureThreshold (default_ProbeCount k) = FailureThreshold k ∧
  MinRequests (default_ProbeCount k) = MinRequests k ∧
  RecoveryTimeout (default_ProbeCount k) = RecoveryTimeout k ∧
  ProbeCount (default_ProbeCount k) = (if ProbeCount k <=? 0 then 3 else ProbeCount k) ∧
  Fallback (default_ProbeCount k) = Fallback k ∧
  OnStateChange (default_ProbeCount k) = OnStateChange k.
Proof. unfold default_ProbeCount. destruct (ProbeCount k <=? 0); repeat split. Qed.

(** The defaults, field by field. *)
Lemma withDefaults_fields (c : Config V) :
  Name (withDefaults c) = Name c ∧
  WindowSize (withDefaults c) = (if WindowSize c <=? 0 then 20 else WindowSize c) ∧
  FailureThreshold (withDefaults c) =
    (if Go.fle (FailureThreshold c) Go.fzero then 0.5%float else FailureThreshold c) ∧
  MinRequests (withDefaults c) = (if MinRequests c <=? 0 then 5 else MinRequests c) ∧
  RecoveryTimeout (withDefaults c) =
    (if RecoveryTimeout c <=? 0 then 30 * Second else RecoveryTimeout c) ∧
  ProbeCount (withDefaults c) = (if ProbeCount c <=? 0 then 3 else ProbeCount c) ∧
  Fallback (withDefaults c) = Fallback c ∧
  OnStateChange (withDefaults c) = OnStateChange c.
Proof.
  rewrite withDefaults_steps.
  set (c1 := default_WindowSize c).
  set (c2 := default_FailureThreshold c1).
  set (c3 := default_MinRequests c2).
  set (c4 := default_RecoveryTimeout c3).
  destruct (default_WindowSize_fields c) as (A1 & A2 & A3 & A4 & A5 & A6 & A7 & A8).
  destruct (default_FailureThreshold_fields c1) as (B1 & B2 & B3 & B4 & B5 & B6 & B7 & B8).
  destruct (default_MinRequests_fields c2) as (C1 & C2 & C3 & C4 & C5 & C6 & C7 & C8).
  destruct (default_RecoveryTimeout_fields c3) as (D1 & D2 & D3 & D4 & D5 & D6 & D7 & D8).
  destruct (default_ProbeCount_fields c4) as (E1 & E2 & E3 & E4 & E5 & E6 & E7 & E8).
  fold c1 in A1, A2, A3, A4, A5, A6, A7, A8.
  fold c2 in B1, B2, B3, B4, B5, B6, B7, B8.
  fold c3 in C1, C2, C3, C4, C5, C6, C7, C8.
  fold c4 in D1, D2, D3, D4, D5, D6, D7, D8.
  clearbody c1 c2 c3 c4.
  rewrite E1, E2, E3, E4, E5, E6, E7, E8, D1, D2, D3, D4, D5, D6, D7, D8,
    C1, C2, C3, C4, C5, C6, C7, C8, B1, B2, B3, B4, B5, B6, B7, B8,
    A1, A2, A3, A4, A5, A6, A7, A8.
  repeat split.
Qed.

(** [setState] to the current state does nothing at all. *)
Lemma setState_same cb w : setState (state cb) cb w = (cb, w).
Proof. unfold setState. by rewrite bool_decide_eq_true_2. Qed.

(** [setState] to another state: one clock reading, one log line, and the
    callback when there is one. *)
Lemma setState_other to cb w :
  state cb ≠ to ->
  setState to cb w =
  (set_lastStateChange (clock w (reads w)) (set_state to cb),
   mkWorld (clock w) (S (reads w))
     (trace w ++
      Warn "circuit breaker state change" (Name (cfg cb))
        (State_String (state cb)) (State_String to)
      :: match OnStateChange (cfg cb) with
         | Some _ => [StateChanged (Name (cfg cb)) (state cb) to]
         | None => []
         end)).
Proof.
  intros Hne. unfold setState. rewrite bool_decide_eq_false_2 by done.
  breaker_simpl. destruct (OnStateChange (cfg cb)); breaker_simpl; [|done].
  by rewrite <- app_assoc.
Qed.

Lemma New_inv (c : Config V) w : in_range c -> breaker_inv [] (New c w).1.
Proof.
  intros [Hw Hp]. unfold New. breaker_simpl.
  destruct (withDefaults_fields c) as (_ & HW & _ & _ & _ & HP & _).
  assert (1 <= WindowSize (withDefaults c) <= Go.max_int).
  { rewrite HW. destruct (Z.leb_spec (WindowSize c) 0); int_range. }
  assert (1 <= ProbeCount (withDefaults c) <= Go.max_int).
  { rewrite HP. destruct (Z.leb_spec (ProbeCount c) 0); int_range. }
  split; breaker_simpl; try done.
  by apply new_window_inv.
Qed.

Lemma setState_moved to cb w : state cb ≠ to -> setState to cb w = moved to cb w.
Proof. apply setState_other. Qed.

(** *** The admission check, case by case *)

Lemma beforeCall_closed cb w :
  state cb = StateClosed -> beforeCall cb w = (None, cb, w).
Proof. intros H. unfold beforeCall. by rewrite H. Qed.

Lemma beforeCall_half_open cb w :
  state cb = StateHalfOpen -> beforeCall cb w = (None, cb, w).
Proof. intros H. unfold beforeCall. by rewrite H. Qed.

Lemma beforeCall_open_early cb w :
  state cb = StateOpen ->
  Time_Sub (clock w (reads w)) (openedAt cb) < RecoveryTimeout (cfg cb) ->
  beforeCall cb w
  = (Some ErrCircuitOpen, cb, mkWorld (clock w) (S (reads w)) (trace w)).
Proof.
  intros H Hlt. unfold beforeCall. rewrite H. breaker_simpl.
  destruct (Z.geb_spec (Time_Sub (clock w (reads w)) (openedAt cb))
              (RecoveryTimeout (cfg cb))); [lia|done].
Qed.


(** *** Recording an outcome, case by case *)

Lemma afterCall_open err cb w :
  state cb = StateOpen -> afterCall err cb w = Some (cb, w).
Proof. intros H. unfold afterCall. by rewrite H. Qed.

Lemma afterCall_closed err cb w win :
  state cb = StateClosed ->
  record (if not_nil err then failure else success) (window cb) = Some win ->
  afterCall err cb w =
  Some (if trips (cfg cb) win then opened (set_window win cb) w
        else (set_window win cb, w)).
Proof.
  intros H Hrec. unfold afterCall. rewrite H, Hrec. cbn [mbind option_bind].
  unfold trips. cbn [cfg window set_window].
  destruct (_ && _); [|done].
  rewrite setState_moved by (cbn [state set_window]; by rewrite H). done.
Qed.

Lemma afterCall_probe_failed err cb w :
  state cb = StateHalfOpen -> not_nil err = true ->
  afterCall err cb w =
  Some (set_probeSuccesses 0 (opened cb w).1, (opened cb w).2).
Proof.
  intros H He. unfold afterCall. rewrite H, He.
  rewrite setState_moved by (by rewrite H). done.
Qed.

Lemma afterCall_probe_counted err cb w :
  state cb = StateHalfOpen -> not_nil err = false ->
  0 <= probeSuccesses cb -> probeSuccesses cb + 1 < ProbeCount (cfg cb) ->
  ProbeCount (cfg cb) <= Go.max_int ->
  afterCall err cb w = Some (set_probeSuccesses (probeSuccesses cb + 1) cb, w).
Proof.
  intros H He H0 Hlt Hmax. unfold afterCall. rewrite H, He.
  unfold Go.add. rewrite wrap_small by int_range. breaker_simpl.
  destruct (Z.geb_spec (probeSuccesses cb + 1) (ProbeCount (cfg cb))); [lia|done].
Qed.

Lemma afterCall_probe_closes err cb w :
  state cb = StateHalfOpen -> not_nil err = false ->
  0 <= probeSuccesses cb < ProbeCount (cfg cb) ->
  ProbeCount (cfg cb) <= probeSuccesses cb + 1 ->
  ProbeCount (cfg cb) <= Go.max_int ->
  afterCall err cb w =
  Some (set_probeSuccesses 0
          (set_window (reset (window cb))
             (moved StateClosed (set_probeSuccesses (probeSuccesses cb + 1) cb) w).1),
        (moved StateClosed cb w).2).
Proof.
  intros H He H0 Hge Hmax. unfold afterCall. rewrite H, He.
  unfold Go.add. rewrite wrap_small by int_range. cbn [probeSuccesses set_probeSuccesses cfg].
  destruct (Z.geb_spec (probeSuccesses cb + 1) (ProbeCount (cfg cb))); [|lia].
  rewrite setState_moved by (cbn [state set_probeSuccesses]; by rewrite H). done.
Qed.

End BreakerFacts.

(** ** The fixtures at work *)

Lemma test_breaker_well_formed : well_formed test_breaker.
Proof. exists []. apply New_inv. split; vm_compute; discriminate. Qed.

Example trips_after_five_failures :
  (λ r, state r.1) <$> Execute_all (replicate 5 failFn) test_breaker test_world'
  = Some StateOpen.
Proof. reflexivity. Qed.

Example stays_closed_below_minimum :
  (λ r, state r.1) <$> Execute_all (replicate 4 failFn) test_breaker test_world'
  = Some StateClosed.
Proof. reflexivity. Qed.

(** A whole call is two critical sections: a probe admitted from Open that
    then fails ends Open again after two transitions, Open to HalfOpen and
    HalfOpen to Open, and the callback has seen both. *)
Example failed_probe_makes_two_transitions :
  (λ r, (state r.1.2, new_events (mkWorld (clock test_world) 100 []) r.2))
    <$> Execute failFn tripped_breaker (mkWorld (clock test_world) 100 [])
  = Some (StateOpen,
          [Warn "circuit breaker state change" "test" "open" "half-open";
           StateChanged "test" StateOpen StateHalfOpen;
           Invoked;
           Warn "circuit breaker state change" "test" "half-open" "open";
           StateChanged "test" StateHalfOpen StateOpen]).
Proof. reflexivity. Qed.

(** ** No transition to the current state *)

Section Transitions.

Context {V : Type}.
Implicit Types (cb : CircuitBreaker V) (w : World).

Lemma probing_range os cb :
  breaker_inv os cb -> state cb = StateHalfOpen ->
  0 <= probeSuccesses cb < ProbeCount (cfg cb).
Proof. intros [_ _ _ H] Hst. by rewrite Hst in H. Qed.

Lemma not_probing_zero os cb :
  breaker_inv os cb -> state cb ≠ StateHalfOpen -> probeSuccesses cb = 0.
Proof. intros [_ _ _ H] Hst. by destruct (state cb). Qed.


(** C8. [setState] to the current state changes nothing; and whenever the
    admission check, the recording of an outcome or the state query ends in
    the state it started in, it has appended nothing to the trace (no
    callback, no log line) and has left [lastStateChange] alone. *)
Theorem no_self_transition cb w :
  well_formed cb ->
  setState (state cb) cb w = (cb, w) ∧
  (∀ e cb' w', beforeCall cb w = (e, cb', w') -> quiet cb w cb' w') ∧
  (∀ err, ∃ cb' w', afterCall err cb w = Some (cb', w') ∧ quiet cb w cb' w') ∧
  (∀ s cb' w', State_ cb w = (s, cb', w') -> quiet cb w cb' w').
Proof.
  intros [os Hinv]. split; [apply setState_same|]. split; [|split].
  - intros e cb' w'. unfold beforeCall.
    destruct (state cb) eqn:Hst; try (intros [= <- <- <-]; by intros _).
    cbn [now].
    destruct (_ >=? _).
    + rewrite setState_moved by (by rewrite Hst).
      intros [= <- <- <-] Hsame. cbn in Hsame. congruence.
    + intros [= <- <- <-] _. done.
  - intros err. pose proof (probing_range _ _ Hinv) as Hpr.
    destruct Hinv as [Hs Hp Hw _].
    destruct (state cb) eqn:Hst.
    + destruct (record_inv _ _ _ (if not_nil err then failure else success) Hw)
        as (win & Hrec & _).
      rewrite (afterCall_closed _ _ _ _ Hst Hrec).
      destruct (trips _ _); do 2 eexists; (split; [done|]); intros Hsame.
      * cbn in Hsame. congruence.
      * done.
    + rewrite afterCall_open by done. do 2 eexists. split; [done|]. by intros _.
    + specialize (Hpr eq_refl). destruct (not_nil err) eqn:He.
      * rewrite afterCall_probe_failed by done. do 2 eexists. split; [done|].
        intros Hsame. cbn in Hsame. congruence.
      * destruct (Z.lt_ge_cases (probeSuccesses cb + 1) (ProbeCount (cfg cb))).
        -- rewrite afterCall_probe_counted by (try done; lia).
           do 2 eexists. split; [done|]. by intros _.
        -- rewrite afterCall_probe_closes by (try done; lia).
           do 2 eexists. split; [done|]. intros Hsame. cbn in Hsame. congruence.
  - intros s cb' w'. unfold State_.
    destruct (state cb) eqn:Hst; try (intros [= <- <- <-]; by intros _).
    cbn [now]. destruct (_ >=? _).
    + rewrite setState_moved by (by rewrite Hst).
      intros [= <- <- <-] Hsame. cbn in Hsame. congruence.
    + intros [= <- <- <-] _. done.
Qed.

End Transitions.

Lemma no_self_transition_witness :
  setState (state test_breaker) test_breaker test_world'
  = (test_breaker, test_world').
Proof.
  exact (proj1 (no_self_transition test_breaker test_world'
                  test_breaker_well_formed)).
Defined.

(** ** Well-formedness is preserved, and no call panics *)

Section Preservation.

Context {V : Type}.
Implicit Types (cb : CircuitBreaker V) (w : World) (c : call V).

Lemma breaker_inv_ext os cb cb' :
  cfg cb' = cfg cb -> state cb' = state cb -> window cb' = window cb ->
  probeSuccesses cb' = probeSuccesses cb ->
  breaker_inv os cb -> breaker_inv os cb'.
Proof.
  intros Hc Hs Hw Hp [H1 H2 H3 H4].
  split; rewrite ?Hc, ?Hs, ?Hw, ?Hp; done.
Qed.

Lemma beforeCall_inv os cb w e cb' w' :
  beforeCall cb w = (e, cb', w') ->
  breaker_inv os cb -> breaker_inv os cb' ∧ cfg cb' = cfg cb.
Proof.
  intros Hbc Hinv. unfold beforeCall in Hbc.
  destruct (state cb) eqn:Hst; try (injection Hbc as <- <- <-; done).
  cbn [now] in Hbc. destruct (_ >=? _).
  - rewrite setState_moved in Hbc by (by rewrite Hst).
    injection Hbc as <- <- <-. split; [|done].
    pose proof (not_probing_zero _ _ Hinv ltac:(by rewrite Hst)) as Hz.
    destruct Hinv as [H1 H2 H3 _].
    split; cbn; try done. rewrite Hz. lia.
  - injection Hbc as <- <- <-. done.
Qed.

Lemma afterCall_inv os err cb w :
  breaker_inv os cb ->
  ∃ cb' w' os', afterCall err cb w = Some (cb', w') ∧
    breaker_inv os' cb' ∧ cfg cb' = cfg cb ∧
    totalRequests cb' = totalRequests cb ∧
    totalSuccesses cb' = totalSuccesses cb ∧
    totalFailures cb' = totalFailures cb.
Proof.
  intros Hinv. pose proof (probing_range _ _ Hinv) as Hpr.
  pose proof (not_probing_zero _ _ Hinv) as Hz.
  destruct Hinv as [Hs Hp Hw Hx].
  destruct (state cb) eqn:Hst.
  - destruct (record_inv _ _ _ (if not_nil err then failure else success) Hw)
      as (win & Hrec & Hwin).
    rewrite (afterCall_closed _ _ _ _ Hst Hrec).
    destruct (trips _ _); do 3 eexists; (split; [done|]);
      (split; [|done]); (split; cbn; rewrite ?Hst; try done); exact Hwin.
  - rewrite afterCall_open by done. exists cb, w, os.
    split; [done|]. split; [|done]. split; try done. by rewrite Hst.
  - specialize (Hpr eq_refl). destruct (not_nil err) eqn:He.
    + rewrite afterCall_probe_failed by done. do 2 eexists. exists os.
      split; [done|]. split; [|done]. split; cbn; done.
    + destruct (Z.lt_ge_cases (probeSuccesses cb + 1) (ProbeCount (cfg cb))).
      * rewrite afterCall_probe_counted by (try done; lia).
        do 2 eexists. exists os. split; [done|]. split; [|done].
        split; cbn; rewrite ?Hst; try done. lia.
      * rewrite afterCall_probe_closes by (try done; lia).
        do 2 eexists. exists []. split; [done|]. split; [|done].
        split; cbn; try done. by apply (reset_window_inv _ os).
Qed.

(** [Execute], case by case. *)
Lemma Execute_rejected c cb w e cb1 w1 :
  beforeCall (counted cb) w = (Some e, cb1, w1) ->
  Execute c cb w =
  Some (match Fallback (cfg cb1) with
        | Some fallback =>
            ((fallback (Some e)).1, (fallback (Some e)).2,
             set_totalFailures (Go.add (totalFailures cb1) 1) cb1,
             emit (FellBack (Some e)) w1)
        | None =>
            (None, Some e, set_totalFailures (Go.add (totalFailures cb1) 1) cb1, w1)
        end).
Proof.
  intros Hbc. unfold Execute. fold (counted cb). rewrite Hbc.
  cbn [not_nil cfg set_totalFailures].
  destruct (Fallback (cfg cb1)) as [f|]; [|done]. by destruct (f (Some e)).
Qed.

Lemma Execute_excluded c cb w cb1 w1 :
  beforeCall (counted cb) w = (None, cb1, w1) ->
  excluded c = true ->
  Execute c cb w = Some (fn_result c, fn_err c, cb1, emit Invoked w1).
Proof.
  intros Hbc Hex. unfold Execute. fold (counted cb). rewrite Hbc.
  cbn [not_nil]. unfold excluded in Hex. by rewrite Hex.
Qed.

Lemma Execute_recorded c cb w cb1 w1 cb2 w2 :
  beforeCall (counted cb) w = (None, cb1, w1) ->
  excluded c = false ->
  afterCall (fn_err c) cb1 (emit Invoked w1) = Some (cb2, w2) ->
  Execute c cb w =
  Some (fn_result c, fn_err c,
        (if not_nil (fn_err c)
         then set_totalFailures (Go.add (totalFailures cb2) 1) cb2
         else set_totalSuccesses (Go.add (totalSuccesses cb2) 1) cb2),
        w2).
Proof.
  intros Hbc Hex Hac. unfold Execute. fold (counted cb). rewrite Hbc.
  cbn [not_nil]. unfold excluded in Hex. rewrite Hex, Hac. done.
Qed.

Lemma counted_inv os cb : breaker_inv os cb -> breaker_inv os (counted cb).
Proof. by apply breaker_inv_ext. Qed.

Lemma Execute_inv os c cb w :
  breaker_inv os cb ->
  ∃ r e cb' w' os', Execute c cb w = Some (r, e, cb', w') ∧
    breaker_inv os' cb' ∧ cfg cb' = cfg cb.
Proof.
  intros Hinv. apply counted_inv in Hinv.
  destruct (beforeCall (counted cb) w) as [[e cb1] w1] eqn:Hbc.
  destruct (beforeCall_inv _ _ _ _ _ _ Hbc Hinv) as [Hinv1 Hcfg1].
  cbn [counted cfg set_totalRequests] in Hcfg1.
  destruct e as [e|].
  - rewrite (Execute_rejected _ _ _ _ _ _ Hbc).
    destruct (Fallback (cfg cb1)); do 4 eexists; exists os;
      (split; [done|]); (split; [by apply (breaker_inv_ext os cb1)|done]).
  - destruct (excluded c) eqn:Hex.
    + rewrite (Execute_excluded _ _ _ _ _ Hbc Hex).
      do 4 eexists. exists os. done.
    + destruct (afterCall_inv _ (fn_err c) _ (emit Invoked w1) Hinv1)
        as (cb2 & w2 & os2 & Hac & Hinv2 & Hcfg2 & _).
      rewrite (Execute_recorded _ _ _ _ _ _ _ Hbc Hex Hac).
      do 4 eexists. exists os2. split; [done|].
      destruct (not_nil (fn_err c)); (split; [by apply (breaker_inv_ext os2 cb2)|]);
        cbn; congruence.
Qed.

Lemma Execute_all_inv os cs cb w :
  breaker_inv os cb ->
  ∃ cb' w' os', Execute_all cs cb w = Some (cb', w') ∧
    breaker_inv os' cb' ∧ cfg cb' = cfg cb.
Proof.
  revert os cb w. induction cs as [|c cs IH]; intros os cb w Hinv.
  - exists cb, w, os. done.
  - destruct (Execute_inv _ c _ w Hinv) as (r & e & cb1 & w1 & os1 & Hex & Hinv1 & Hcfg1).
    destruct (IH _ _ w1 Hinv1) as (cb2 & w2 & os2 & Hall & Hinv2 & Hcfg2).
    exists cb2, w2, os2. cbn [Execute_all]. rewrite Hex. cbn.
    split; [done|]. split; [done|]. congruence.
Qed.

End Preservation.

(** ** Calls given up by their caller *)

Section Cancellation.

Context {V : Type}.
Implicit Types (cb : CircuitBreaker V) (w : World) (c : call V).

(** The admission check touches the state and [lastStateChange] only. *)
Lemma beforeCall_frame cb w e cb' w' :
  beforeCall cb w = (e, cb', w') ->
  cfg cb' = cfg cb ∧ window cb' = window cb ∧ openedAt cb' = openedAt cb ∧
  probeSuccesses cb' = probeSuccesses cb ∧
  totalRequests cb' = totalRequests cb ∧
  totalSuccesses cb' = totalSuccesses cb ∧
  totalFailures cb' = totalFailures cb ∧
  state cb' = (if bool_decide (state cb = StateOpen ∧ e = None)
               then StateHalfOpen else state cb).
Proof.
  unfold beforeCall. destruct (state cb) eqn:Hst.
  - intros [= <- <- <-]. rewrite bool_decide_eq_false_2 by (intros [? _]; done).
    by rewrite Hst.
  - cbn [now]. destruct (_ >=? _).
    + rewrite setState_moved by (by rewrite Hst). intros [= <- <- <-].
      by rewrite bool_decide_eq_true_2.
    + intros [= <- <- <-]. rewrite bool_decide_eq_false_2 by (intros [_ ?]; done).
      by rewrite Hst.
  - intros [= <- <- <-]. rewrite bool_decide_eq_false_2 by (intros [? _]; done).
    by rewrite Hst.
Qed.

(** A run of excluded calls through a Closed breaker only counts requests. *)
Lemma excluded_calls_closed cs cb w :
  state cb = StateClosed -> Forall (λ c, excluded c = true) cs ->
  ∃ cb' w', Execute_all cs cb w = Some (cb', w') ∧
    state cb' = StateClosed ∧ window cb' = window cb ∧
    totalSuccesses cb' = totalSuccesses cb ∧
    totalFailures cb' = totalFailures cb ∧
    lastStateChange cb' = lastStateChange cb.
Proof.
  revert cb w. induction cs as [|c cs IH]; intros cb w Hst Hall.
  - exists cb, w. done.
  - apply Forall_cons in Hall as [Hc Hcs].
    assert (Hbc : beforeCall (counted cb) w = (None, counted cb, w))
      by (by apply beforeCall_closed).
    cbn [Execute_all]. rewrite (Execute_excluded _ _ _ _ _ Hbc Hc). cbn.
    destruct (IH (counted cb) (emit Invoked w) Hst Hcs)
      as (cb' & w' & Hrun & ? & ? & ? & ? & ?).
    exists cb', w'. done.
Qed.

(** C4. An admitted call that fails while the caller's context reports an
    error is handed back as it is: the breaker is exactly the one the
    admission check produced (so its window and its success and failure
    totals are those from before the call, and its state moved only if the
    admission itself turned Open into HalfOpen), and the operation did run.
    In particular any number of such calls on a fresh breaker leave it
    Closed with a windowed failure rate of 0. *)
Theorem cancelled_outcome_not_counted
    c cb w cb1 w1 (k : Config V) (w0 : World) (cs : list (call V)) :
  not_nil (fn_err c) = true -> not_nil (ctx_Err c) = true ->
  beforeCall (counted cb) w = (None, cb1, w1) ->
  Forall (λ c, not_nil (fn_err c) = true ∧ not_nil (ctx_Err c) = true) cs ->
  (Execute c cb w = Some (fn_result c, fn_err c, cb1, emit Invoked w1) ∧
   window cb1 = window cb ∧
   totalSuccesses cb1 = totalSuccesses cb ∧
   totalFailures cb1 = totalFailures cb ∧
   state cb1 = (if bool_decide (state cb = StateOpen)
                then StateHalfOpen else state cb)) ∧
  (∃ cb' w', Execute_all cs (New k w0).1 (New k w0).2 = Some (cb', w') ∧
     state cb' = StateClosed ∧
     WindowFailureRate (Metrics cb') = Go.fzero ∧
     TotalSuccesses (Metrics cb') = 0 ∧ TotalFailures (Metrics cb') = 0).
Proof.
  intros He Hc Hbc Hcs. split.
  - split.
    { apply Execute_excluded; [done|]. unfold excluded. by rewrite He, Hc. }
    destruct (beforeCall_frame _ _ _ _ _ Hbc) as (_ & Hw & _ & _ & _ & Hs & Hf & Hst).
    repeat split; try done.
    rewrite Hst. cbn [counted state set_totalRequests].
    destruct (state cb); by repeat case_bool_decide; intuition.
  - destruct (excluded_calls_closed cs (New k w0).1 (New k w0).2) as
      (cb' & w' & Hrun & Hst & Hw & Hs & Hf & _); [done| |].
    { eapply Forall_impl; [exact Hcs|]. intros c' [H1 H2]. unfold excluded.
      by rewrite H1, H2. }
    exists cb', w'. split; [done|]. split; [done|].
    unfold Metrics. cbn [WindowFailureRate TotalSuccesses TotalFailures].
    rewrite Hw, Hs, Hf. done.
Qed.

End Cancellation.

Lemma cancelled_outcome_not_counted_witness :
  Execute cancelledFn test_breaker test_world'
  = Some (None, Some context_Canceled, counted test_breaker,
          emit Invoked test_world').
Proof.
  refine (proj1 (proj1 (cancelled_outcome_not_counted
    cancelledFn test_breaker test_world' (counted test_breaker) test_world'
    test_config test_world (replicate 10 cancelledFn) _ _ _ _))).
  - reflexivity.
  - reflexivity.
  - reflexivity.
  - repeat constructor.
Defined.

(** ** Tripping, rejecting and probing *)


Lemma failures_in_replicate n : failures_in (replicate n failure) = Z.of_nat n.
Proof.
  induction n as [|n IH]; [done|].
  cbn [replicate]. rewrite failures_in_cons, IH.
  rewrite bool_decide_eq_true_2 by done. lia.
Qed.

Lemma last_n_app_ge {A} (k : nat) (l1 l2 : list A) :
  (length l2 <= k)%nat ->
  last_n k (l1 ++ l2) = last_n (k - length l2) l1 ++ l2.
Proof.
  intros Hk. unfold last_n. rewrite length_app.
  rewrite drop_app_le by lia. f_equal. f_equal. lia.
Qed.

Section Tripping.

Context {V : Type}.
Implicit Types (cb : CircuitBreaker V) (w : World) (c : call V).


Lemma recorded_success_counts c : recorded_success c -> excluded c = false.
Proof. intros H. unfold excluded. by rewrite H. Qed.






End Tripping.

Section OpenCircuit.

Context {V : Type}.
Implicit Types (cb : CircuitBreaker V) (w : World) (c : call V).




End OpenCircuit.



(** ** Recovery through probes *)

Section Recovery.

Context {V : Type}.
Implicit Types (cb : CircuitBreaker V) (w : World) (c : call V).

(** Below the minimum number of requests a Closed breaker stays Closed,
    whatever the outcomes. *)
Lemma below_minimum_stays_closed os cs cb w :
  breaker_inv os cb -> state cb = StateClosed ->
  Forall (λ c, excluded c = false) cs ->
  Go.len os + Go.len cs < MinRequests (cfg cb) ->
  ∃ cb' w', Execute_all cs cb w = Some (cb', w') ∧ cfg cb' = cfg cb ∧
    state cb' = StateClosed ∧ breaker_inv (os ++ map outcome_of cs) cb'.
Proof.
  revert os cb w. induction cs as [|c cs IH]; intros os cb w Hinv Hst Hall Hlen.
  - exists cb, w. cbn [map]. by rewrite app_nil_r.
  - apply Forall_cons in Hall as [Hc Hcs].
    assert (Hbc : beforeCall (counted cb) w = (None, counted cb, w))
      by (by apply beforeCall_closed).
    pose proof Hinv as [H1 H2 Hw H4].
    destruct (record_inv _ _ _ (outcome_of c) Hw) as (win & Hrec & Hwin).
    assert (Htr : trips (cfg cb) win = false).
    { unfold trips, total. destruct Hwin as [_ _ Hcnt _ _ _].
      unfold Go.len in *. rewrite length_app in Hcnt. cbn [length] in *.
      destruct (Z.geb_spec (count win) (MinRequests (cfg cb))); [lia|done]. }
    assert (Hac : afterCall (fn_err c) (counted cb) (emit Invoked w)
                  = Some (set_window win (counted cb), emit Invoked w)).
    { rewrite (afterCall_closed _ _ _ win) by done.
      cbn [counted cfg set_totalRequests]. by rewrite Htr. }
    cbn [Execute_all]. rewrite (Execute_recorded _ _ _ _ _ _ _ Hbc Hc Hac).
    cbn [mbind option_bind].
    set (cb1 := if not_nil (fn_err c) then _ else _).
    assert (Hcb1 : cfg cb1 = cfg cb ∧ state cb1 = StateClosed ∧
                   breaker_inv (os ++ [outcome_of c]) cb1).
    { rewrite Hst in H4.
      subst cb1. destruct (not_nil (fn_err c)); (split; [done|]);
        (split; [done|]); split; cbn; rewrite ?Hst; done. }
    destruct Hcb1 as (Hcfg1 & Hst1 & Hinv1).
    destruct (IH _ cb1 (emit Invoked w) Hinv1 Hst1 Hcs) as (cb' & w' & Hrun & Hcfg' & Hst' & Hinv').
    { rewrite Hcfg1. unfold Go.len in *. rewrite length_app. cbn [length] in *. lia. }
    exists cb', w'. split; [done|]. split; [congruence|]. split; [done|].
    cbn [map]. by rewrite <- app_assoc in Hinv'.
Qed.


(** The successful probe that completes the count closes the breaker and
    empties the window. *)
Lemma probe_closes os c cb w :
  breaker_inv os cb -> state cb = StateHalfOpen -> recorded_success c ->
  ProbeCount (cfg cb) <= probeSuccesses cb + 1 ->
  ∃ cb' w', Execute c cb w = Some (fn_result c, fn_err c, cb', w') ∧
    cfg cb' = cfg cb ∧ state cb' = StateClosed ∧
    window cb' = reset (window cb) ∧ probeSuccesses cb' = 0 ∧
    breaker_inv [] cb'.
Proof.
  intros Hinv Hst Hc Hge.
  pose proof (probing_range _ _ Hinv Hst) as Hpr.
  assert (Hbc : beforeCall (counted cb) w = (None, counted cb, w))
    by (by apply beforeCall_half_open).
  pose proof Hinv as [H1 H2 H3 H4].
  pose proof (afterCall_probe_closes (fn_err c) (counted cb) (emit Invoked w)
                Hst Hc Hpr Hge ltac:(cbn; lia)) as Hac.
  rewrite (Execute_recorded _ _ _ _ _ _ _ Hbc (recorded_success_counts _ Hc) Hac).
  rewrite Hc. do 2 eexists. split; [done|]. split; [done|]. split; [done|].
  split; [done|]. split; [done|]. split; cbn; try done.
  by apply (reset_window_inv _ os).
Qed.



End Recovery.

Lemma half_open_breaker_well_formed : well_formed half_open_breaker.
Proof.
  exists (replicate 5 failure).
  split; [vm_compute; split; discriminate ..| |vm_compute; split; [discriminate|reflexivity]].
  split; try reflexivity. vm_compute. split; discriminate.
Qed.


(** ** The window while the breaker is not Closed *)

Section Frozen.

Context {V : Type}.
Implicit Types (cb : CircuitBreaker V) (w : World) (c : call V).

Lemma State_frame cb w s cb' w' :
  State_ cb w = (s, cb', w') ->
  s = state cb' ∧ cfg cb' = cfg cb ∧ window cb' = window cb ∧
  probeSuccesses cb' = probeSuccesses cb ∧
  (state cb' = state cb ∨ (state cb = StateOpen ∧ state cb' = StateHalfOpen)).
Proof.
  unfold State_. destruct (state cb) eqn:Hst;
    try (intros [= <- <- <-]; rewrite Hst; by repeat split; auto).
  cbn [now]. destruct (_ >=? _).
  - rewrite setState_moved by (by rewrite Hst). intros [= <- <- <-]. cbn.
    repeat split; auto.
  - intros [= <- <- <-]. rewrite Hst. repeat split; auto.
Qed.

Lemma State_inv os cb w s cb' w' :
  State_ cb w = (s, cb', w') -> breaker_inv os cb -> breaker_inv os cb'.
Proof.
  intros HS Hinv.
  destruct (State_frame _ _ _ _ _ HS) as (_ & Hc & Hw & Hp & Hst).
  pose proof (not_probing_zero _ _ Hinv) as Hz.
  destruct Hinv as [H1 H2 H3 H4].
  split; rewrite ?Hc, ?Hw, ?Hp; try done.
  destruct Hst as [->|[Ho ->]]; [done|].
  rewrite Hz by (by rewrite Ho). lia.
Qed.

Lemma afterCall_tripped os err cb w cb' w' :
  breaker_inv os cb -> state cb ≠ StateClosed ->
  afterCall err cb w = Some (cb', w') -> frozen_or_reset cb cb'.
Proof.
  intros Hinv Hst. pose proof (probing_range _ _ Hinv) as Hpr.
  destruct Hinv as [H1 H2 H3 _]. unfold frozen_or_reset.
  destruct (state cb) eqn:Hs; [done| |].
  - rewrite afterCall_open by done. intros [= <- <-]. by rewrite Hs.
  - specialize (Hpr eq_refl). destruct (not_nil err) eqn:He.
    + rewrite afterCall_probe_failed by done. intros [= <- <-]. done.
    + destruct (Z.lt_ge_cases (probeSuccesses cb + 1) (ProbeCount (cfg cb))).
      * rewrite afterCall_probe_counted by (try done; lia).
        intros [= <- <-]. cbn. by rewrite Hs.
      * rewrite afterCall_probe_closes by (try done; lia).
        intros [= <- <-]. done.
Qed.

Lemma perform_tripped os o cb w :
  breaker_inv os cb -> state cb ≠ StateClosed ->
  ∃ cb' w', perform o cb w = Some (cb', w') ∧ well_formed cb' ∧
            frozen_or_reset cb cb'.
Proof.
  intros Hinv Hst. destruct o as [|err|c| |]; cbn [perform].
  - destruct (beforeCall cb w) as [[e cb1] w1] eqn:Hbc.
    destruct (beforeCall_inv _ _ _ _ _ _ Hbc Hinv) as [Hinv1 _].
    destruct (beforeCall_frame _ _ _ _ _ Hbc) as (_ & Hw & _ & _ & _ & _ & _ & Hs).
    exists cb1, w1. split; [done|]. split; [by exists os|].
    unfold frozen_or_reset, Metrics. cbn. rewrite Hw, Hs.
    case_bool_decide; [done|]. by destruct (state cb).
  - destruct (afterCall_inv _ err _ w Hinv) as (cb1 & w1 & os1 & Hac & Hinv1 & _).
    exists cb1, w1. split; [done|]. split; [by exists os1|].
    by apply (afterCall_tripped os err cb w cb1 w1).
  - pose proof (counted_inv _ _ Hinv) as Hinvc.
    destruct (beforeCall (counted cb) w) as [[e cb1] w1] eqn:Hbc.
    destruct (beforeCall_inv _ _ _ _ _ _ Hbc Hinvc) as [Hinv1 _].
    destruct (beforeCall_frame _ _ _ _ _ Hbc) as (_ & Hw & _ & _ & _ & _ & _ & Hs).
    cbn [counted state window set_totalRequests] in Hw, Hs.
    assert (Hst1 : state cb1 ≠ StateClosed).
    { rewrite Hs. case_bool_decide; done. }
    destruct e as [e|].
    + rewrite (Execute_rejected _ _ _ _ _ _ Hbc).
      destruct (Fallback (cfg cb1)); cbn; do 2 eexists; (split; [done|]);
        (split; [exists os; by apply (breaker_inv_ext os cb1)|]);
        unfold frozen_or_reset, Metrics; cbn; rewrite Hw;
        by destruct (state cb1).
    + destruct (excluded c) eqn:Hex.
      * rewrite (Execute_excluded _ _ _ _ _ Hbc Hex). cbn.
        do 2 eexists. split; [done|]. split; [by exists os|].
        unfold frozen_or_reset, Metrics; cbn; rewrite Hw; by destruct (state cb1).
      * destruct (afterCall_inv _ (fn_err c) _ (emit Invoked w1) Hinv1)
          as (cb2 & w2 & os2 & Hac & Hinv2 & _).
        pose proof (afterCall_tripped _ _ _ _ _ _ Hinv1 Hst1 Hac) as Hfr.
        rewrite (Execute_recorded _ _ _ _ _ _ _ Hbc Hex Hac). cbn.
        do 2 eexists. split; [done|].
        split; [exists os2; destruct (not_nil (fn_err c));
                by apply (breaker_inv_ext os2 cb2)|].
        unfold frozen_or_reset, Metrics in *. rewrite Hw in Hfr.
        by destruct (not_nil (fn_err c)); cbn in *.
  - destruct (State_ cb w) as [[s cb1] w1] eqn:HS.
    pose proof (State_inv _ _ _ _ _ _ HS Hinv) as Hinv1.
    destruct (State_frame _ _ _ _ _ HS) as (_ & _ & Hw & _ & Hs).
    exists cb1, w1. split; [done|]. split; [by exists os|].
    unfold frozen_or_reset, Metrics. cbn. rewrite Hw.
    destruct Hs as [Hs|[_ Hs]]; rewrite Hs; [by destruct (state cb)|done].
  - exists cb, w. split; [done|]. split; [by exists os|].
    unfold frozen_or_reset. by destruct (state cb).
Qed.

(** C9. From a state other than Closed, every operation runs to
    completion and leaves the window as it was, and with it the failure
    rate in the metrics, unless it closes the breaker, in which case the
    window has been reset; hence over any run that stays Open or HalfOpen
    the window and the reported rate keep the values they had. *)
Theorem window_frozen_while_tripped cb w :
  well_formed cb -> state cb ≠ StateClosed ->
  (∀ o, ∃ cb' w', perform o cb w = Some (cb', w') ∧ frozen_or_reset cb cb') ∧
  (∀ os cb' w', stays_tripped cb w os cb' w' ->
     window cb' = window cb ∧
     WindowFailureRate (Metrics cb') = WindowFailureRate (Metrics cb)).
Proof.
  intros Hwf Hst. split.
  - intros o. destruct Hwf as [os Hinv].
    destruct (perform_tripped os o cb w Hinv Hst) as (cb' & w' & Hp & _ & Hfr).
    by exists cb', w'.
  - intros os cb' w' Hrun. induction Hrun as [|cb w o cb1 w1 os cb' w' Hst0 Hp Hrun IH].
    + done.
    + destruct Hwf as [hist Hinv].
      destruct (perform_tripped hist o cb w Hinv Hst0) as (cb1' & w1' & Hp' & Hwf1 & Hfr).
      rewrite Hp in Hp'. injection Hp' as <- <-.
      assert (Hst1 : state cb1 ≠ StateClosed) by (by inversion Hrun).
      destruct (IH Hwf1 Hst1) as [IHw IHr].
      unfold frozen_or_reset in Hfr. destruct (state cb1); [done| |];
        destruct Hfr as [Hw1 Hr1]; split; congruence.
Qed.

End Frozen.

Lemma window_frozen_while_tripped_witness :
  ∃ cb' w', perform (Call succeedFn) half_open_breaker test_world = Some (cb', w') ∧
            frozen_or_reset half_open_breaker cb'.
Proof.
  refine (proj1 (window_frozen_while_tripped half_open_breaker test_world _ _)
            (Call succeedFn)).
  - exact half_open_breaker_well_formed.
  - vm_compute. discriminate.
Defined.

(** ** Lifetime totals *)

Section Totals.

Context {V : Type}.
Implicit Types (cb : CircuitBreaker V) (w : World) (c : call V).




End Totals.


(** ** Construction *)

Section Construction.

Context {V : Type}.


End Construction.

(** [New] takes it as it is, and the breaker it yields runs calls: twenty
    failures in a row go through to the operation and leave it Closed. *)
Example overshoot_breaker_never_trips :
  FailureThreshold (cfg (New overshoot_config test_world).1) = 1.5%float ∧
  (λ r, (state r.1, totalFailures r.1, length (filter (λ e, e = Invoked) (trace r.2))))
    <$> Execute_all (replicate 20 failFn) (New overshoot_config test_world).1
          (New overshoot_config test_world).2
  = Some (StateClosed, 20, 20%nat).
Proof. split; reflexivity. Qed.


(** ** The registry *)

Section RegistryFacts.

Context {V : Type}.
Implicit Types (r : Registry V) (h : Heap V) (w : World) (m : gmap string ref).

Lemma serve_found r q h w m p :
  maps_at h !! breakers r = Some m -> m !! request_name q = Some p ->
  serve r q h w = Some (p, h, w).
Proof.
  intros Hm Hp. destruct q as [n|n c]; cbn [serve request_name] in *.
  - unfold Get, map_load. rewrite Hm. cbn [mbind option_bind]. by rewrite Hp.
  - unfold GetWithConfig, map_load. rewrite Hm. cbn [mbind option_bind]. by rewrite Hp.
Qed.

Lemma serve_missing r q h w m :
  maps_at h !! breakers r = Some m -> m !! request_name q = None ->
  serve r q h w = Some (registered r q h w).
Proof.
  intros Hm Hp. unfold registered. rewrite Hm. cbn [default].
  destruct q as [n|n c]; cbn [serve request_name request_config] in *.
  - unfold Get, map_load. rewrite Hm. cbn [mbind option_bind]. rewrite Hp.
    cbn [mbind option_bind]. destruct (New _ w) as [cb w1] eqn:HN.
    unfold alloc_breaker, map_store. cbn [maps_at breakers_at fst snd].
    rewrite Hm. done.
  - unfold GetWithConfig, map_load. rewrite Hm. cbn [mbind option_bind]. rewrite Hp.
    cbn [mbind option_bind]. destruct (New _ w) as [cb w1] eqn:HN.
    unfold alloc_breaker, map_store. cbn [maps_at breakers_at fst snd].
    rewrite Hm. done.
Qed.

Lemma request_config_name r q : Name (request_config r q) = request_name q.
Proof. by destruct q. Qed.

Lemma New_name (c : Config V) w : Name (cfg (New c w).1) = Name c.
Proof. unfold New. cbn. apply withDefaults_fields. Qed.

Lemma serve_all_run r qs h w m base :
  maps_at h !! breakers r = Some m ->
  (base <= length (breakers_at h))%nat ->
  (∀ p cb, (base <= p)%nat -> breakers_at h !! p = Some cb ->
           m !! Name (cfg cb) = Some p) ->
  ∃ ps h' w' m', serve_all r qs h w = Some (ps, h', w') ∧
    maps_at h' !! breakers r = Some m' ∧ m ⊆ m' ∧
    Forall2 (λ q p, m' !! request_name q = Some p) qs ps ∧
    (∀ p cb, (base <= p)%nat -> breakers_at h' !! p = Some cb ->
             m' !! Name (cfg cb) = Some p) ∧
    (∀ o, o ≠ breakers r -> maps_at h' !! o = maps_at h !! o) ∧
    (∀ p cb, breakers_at h !! p = Some cb -> breakers_at h' !! p = Some cb).
Proof.
  revert h w m. induction qs as [|q qs IH]; intros h w m Hm Hbase Hinv.
  - exists [], h, w, m. cbn [serve_all]. repeat split; done.
  - destruct (m !! request_name q) as [p|] eqn:Hq.
    + destruct (IH h w m Hm Hbase Hinv)
        as (ps & h' & w' & m' & Hrun & Hm' & Hsub & Hall & Hinv' & Hoth & Hold).
      exists (p :: ps), h', w', m'. cbn [serve_all].
      rewrite (serve_found _ _ _ _ _ _ Hm Hq). cbn [mbind option_bind].
      rewrite Hrun. cbn [mbind option_bind].
      split; [done|]. split; [done|]. split; [done|]. split; [|done].
      constructor; [|done]. by eapply lookup_weaken.
    + pose proof (lookup_lt_Some _ _ _ Hm) as Hlt.
      set (p := length (breakers_at h)).
      set (h1 := (registered r q h w).1.2).
      set (w1 := (registered r q h w).2).
      assert (Hm1 : maps_at h1 !! breakers r = Some (<[request_name q := p]> m)).
      { subst h1. unfold registered. cbn [fst snd maps_at]. rewrite Hm. cbn [default].
        by apply list_lookup_insert_eq. }
      destruct (IH h1 w1 _ Hm1) as (ps & h' & w' & m' & Hrun & Hm' & Hsub & Hall & Hinv' & Hoth & Hold).
      { subst h1. unfold registered. cbn [fst snd breakers_at].
        rewrite length_app. lia. }
      { subst h1. unfold registered. cbn [fst snd breakers_at].
        intros p0 cb0 Hp0 Hcb0.
        apply lookup_app_Some in Hcb0 as [Hcb0|[Hge Hcb0]].
        - specialize (Hinv _ _ Hp0 Hcb0).
          rewrite lookup_insert_ne; [done|]. intros Heq. congruence.
        - apply list_lookup_singleton_Some in Hcb0 as [Hz <-].
          rewrite New_name, request_config_name.
          assert (p0 = p) as -> by (subst p; lia).
          apply lookup_insert_eq. }
      exists (p :: ps), h', w', m'. cbn [serve_all].
      rewrite (serve_missing _ _ _ _ _ Hm Hq).
      assert (Hreg : registered r q h w = (p, h1, w1)) by done.
      rewrite Hreg. cbn [mbind option_bind]. rewrite Hrun. cbn [mbind option_bind].
      split; [done|]. split; [done|]. split.
      { etrans; [|exact Hsub]. by apply insert_subseteq. }
      split.
      { constructor; [|done]. eapply lookup_weaken; [|exact Hsub].
        apply lookup_insert_eq. }
      split; [done|]. split.
      { intros o Ho. rewrite (Hoth o Ho). subst h1. unfold registered.
        cbn [fst snd maps_at]. by apply list_lookup_insert_ne. }
      { intros p0 cb0 Hcb0. apply Hold. subst h1. unfold registered.
        cbn [fst snd breakers_at]. by apply lookup_app_l_Some. }
Qed.

(** *** Requests in flight together *)

(** [Get] and [GetWithConfig] are these two sections, one after the other. *)
Lemma serve_sections r q h w :
  serve r q h w =
  (pr ← read_section r q h;
   match pr with
   | Returned _ p => Some (p, h, w)
   | _ => write_section r q h w
   end).
Proof.
  unfold read_section, write_section.
  destruct q as [n|n c]; cbn [serve request_name request_config];
    [unfold Get | unfold GetWithConfig];
    destruct (map_load h (breakers r) n) as [[p|]|] eqn:Hl;
    cbn [mbind option_bind]; rewrite ?Hl; done.
Qed.

Lemma write_section_serve r q h w : write_section r q h w = serve r q h w.
Proof.
  rewrite serve_sections. unfold read_section, write_section.
  by destruct (map_load h (breakers r) (request_name q)) as [[p|]|].
Qed.

Lemma run_schedule_inv r sched ts h w m base :
  maps_at h !! breakers r = Some m ->
  (base <= length (breakers_at h))%nat ->
  (∀ p cb, (base <= p)%nat -> breakers_at h !! p = Some cb ->
           m !! Name (cfg cb) = Some p) ->
  (∀ i q p, ts !! i = Some (Returned q p) -> m !! request_name q = Some p) ->
  ∃ ts' h' w' m', run_schedule r sched ts h w = Some (ts', h', w') ∧
    maps_at h' !! breakers r = Some m' ∧
    (∀ p cb, (base <= p)%nat -> breakers_at h' !! p = Some cb ->
             m' !! Name (cfg cb) = Some p) ∧
    (∀ i q p, ts' !! i = Some (Returned q p) -> m' !! request_name q = Some p).
Proof.
  revert ts h w m. induction sched as [|i sched IH]; intros ts h w m Hm Hbase Hinv Hts.
  - exists ts, h, w, m. done.
  - cbn [run_schedule]. destruct (ts !! i) as [t|] eqn:Hti; [|by apply (IH ts h w m)].
    assert (Hkeep : ∀ t', (∀ q p, t' = Returned q p -> m !! request_name q = Some p) ->
              ∀ j q p, <[i:=t']> ts !! j = Some (Returned q p) ->
                       m !! request_name q = Some p).
    { intros t' Ht' j q p Hj. destruct (decide (i = j)) as [<-|Hne].
      - rewrite list_lookup_insert_eq in Hj by (by eapply lookup_lt_Some).
        injection Hj as ->. by apply Ht'.
      - rewrite list_lookup_insert_ne in Hj by done. by eapply Hts. }
    destruct t as [q|q|q p]; cbn [advance].
    + (* the read section *)
      unfold read_section, map_load. rewrite Hm. cbn [mbind option_bind].
      apply (IH _ h w m); try done. apply Hkeep.
      intros q0 p0. destruct (m !! request_name q) eqn:Hq; [|done].
      intros [= <- <-]. done.
    + (* the write section *)
      rewrite write_section_serve.
      destruct (m !! request_name q) as [p|] eqn:Hq.
      * rewrite (serve_found _ _ _ _ _ _ Hm Hq). cbn [mbind option_bind].
        apply (IH _ h w m); try done. apply Hkeep. by intros q0 p0 [= <- <-].
      * rewrite (serve_missing _ _ _ _ _ Hm Hq). unfold registered.
        rewrite Hm. cbn [default mbind option_bind].
        set (p := length (breakers_at h)).
        pose proof (lookup_lt_Some _ _ _ Hm) as Hlt.
        apply (IH _ _ _ (<[request_name q := p]> m)).
        -- cbn [maps_at]. by apply list_lookup_insert_eq.
        -- cbn [breakers_at]. rewrite length_app. lia.
        -- cbn [breakers_at]. intros p0 cb0 Hp0 Hcb0.
           apply lookup_app_Some in Hcb0 as [Hcb0|[Hge Hcb0]].
           ++ specialize (Hinv _ _ Hp0 Hcb0).
              rewrite lookup_insert_ne; [done|]. intros Heq. congruence.
           ++ apply list_lookup_singleton_Some in Hcb0 as [Hz <-].
              rewrite New_name, request_config_name.
              assert (p0 = p) as -> by (subst p; lia).
              apply lookup_insert_eq.
        -- intros j q0 p0 Hj. destruct (decide (i = j)) as [<-|Hne].
           ++ rewrite list_lookup_insert_eq in Hj by (by eapply lookup_lt_Some).
              injection Hj as <- <-. apply lookup_insert_eq.
           ++ rewrite list_lookup_insert_ne in Hj by done.
              pose proof (Hts _ _ _ Hj) as Hold.
              rewrite lookup_insert_ne; [done|]. intros Heq. congruence.
    + (* already done *)
      cbn [mbind option_bind]. rewrite list_insert_id by done.
      by apply (IH ts h w m).
Qed.

(** C6. In a registry whose map is [m]: a request for a name that [m]
    holds returns the pointer [m] holds and changes nothing, whatever
    configuration comes with it; a request for a name that [m] does not
    hold allocates one breaker, built by [New] from the request's
    configuration, and enters it under that name; over any sequence of
    requests, two requests for the same name return the same pointer, and
    two breakers allocated along the way under the same name are one; and
    the same holds when the critical sections of the requests interleave
    in any order. *)
Theorem one_breaker_per_name r h w m (qs : list request) (sched : list nat) :
  maps_at h !! breakers r = Some m ->
  (∀ q p, m !! request_name q = Some p -> serve r q h w = Some (p, h, w)) ∧
  (∀ q, m !! request_name q = None ->
        serve r q h w = Some (registered r q h w) ∧
        (registered r q h w).1.1 = length (breakers_at h)) ∧
  (∃ ps h' w', serve_all r qs h w = Some (ps, h', w') ∧
     length ps = length qs ∧
     (∀ i j q q' p p',
        qs !! i = Some q -> qs !! j = Some q' ->
        ps !! i = Some p -> ps !! j = Some p' ->
        request_name q = request_name q' -> p = p') ∧
     (∀ p p' cb cb',
        (length (breakers_at h) <= p)%nat -> (length (breakers_at h) <= p')%nat ->
        breakers_at h' !! p = Some cb -> breakers_at h' !! p' = Some cb' ->
        Name (cfg cb) = Name (cfg cb') -> p = p')) ∧
  (∃ ts' h' w', run_schedule r sched (Pending <$> qs) h w = Some (ts', h', w') ∧
     (∀ i j q q' p p',
        ts' !! i = Some (Returned q p) -> ts' !! j = Some (Returned q' p') ->
        request_name q = request_name q' -> p = p') ∧
     (∀ p p' cb cb',
        (length (breakers_at h) <= p)%nat -> (length (breakers_at h) <= p')%nat ->
        breakers_at h' !! p = Some cb -> breakers_at h' !! p' = Some cb' ->
        Name (cfg cb) = Name (cfg cb') -> p = p')).
Proof.
  intros Hm.
  assert (Hfresh : ∀ p cb, (length (breakers_at h) <= p)%nat ->
                           breakers_at h !! p = Some cb ->
                           m !! Name (cfg cb) = Some p).
  { intros p cb Hge Hcb. apply lookup_lt_Some in Hcb. lia. }
  split; [|split; [|split]].
  - intros q p Hp. by apply (serve_found _ _ _ _ m).
  - intros q Hq. split; [by apply (serve_missing _ _ _ _ m)|done].
  - destruct (serve_all_run r qs h w m (length (breakers_at h)) Hm)
      as (ps & h' & w' & m' & Hrun & Hm' & Hsub & Hall & Hinv' & _ & _); try done.
    exists ps, h', w'. split; [done|]. split.
    { symmetry. by eapply Forall2_length. }
    split.
    + intros i j q q' p p' Hqi Hqj Hpi Hpj Hname.
      pose proof (Forall2_lookup_lr _ _ _ _ _ _ Hall Hqi Hpi) as H1.
      pose proof (Forall2_lookup_lr _ _ _ _ _ _ Hall Hqj Hpj) as H2.
      cbn beta in H1, H2. rewrite Hname in H1. congruence.
    + intros p p' cb cb' Hp Hp' Hcb Hcb' Hname.
      pose proof (Hinv' _ _ Hp Hcb) as H1.
      pose proof (Hinv' _ _ Hp' Hcb') as H2.
      rewrite Hname in H1. congruence.
  - destruct (run_schedule_inv r sched (Pending <$> qs) h w m
                (length (breakers_at h)) Hm)
      as (ts' & h' & w' & m' & Hrun & Hm' & Hinv' & Hts'); try done.
    { intros i q p Hi. by apply list_lookup_fmap_Some in Hi as (q0 & [=] & _). }
    exists ts', h', w'. split; [done|]. split.
    + intros i j q q' p p' Hi Hj Hname.
      pose proof (Hts' _ _ _ Hi) as H1. pose proof (Hts' _ _ _ Hj) as H2.
      rewrite Hname in H1. congruence.
    + intros p p' cb cb' Hp Hp' Hcb Hcb' Hname.
      pose proof (Hinv' _ _ Hp Hcb) as H1.
      pose proof (Hinv' _ _ Hp' Hcb') as H2.
      rewrite Hname in H1. congruence.
Qed.

(** *** Snapshots *)

(** The loop of [All]: every entry of the list is stored into [out]. *)
Lemma copy_loop (out : ref) (l : list (string * ref)) h acc :
  maps_at h !! out = Some acc ->
  foldr (λ kv a, h ← a; map_store h out kv.1 kv.2) (Some h) l
  = Some (mkHeap (breakers_at h)
            (<[out := foldr (λ kv a, <[kv.1 := kv.2]> a) acc l]> (maps_at h))).
Proof.
  intros Hacc. induction l as [|[k v] l IH]; cbn [foldr fst snd].
  - destruct h as [bs ms]. cbn in *. by rewrite list_insert_id.
  - rewrite IH. cbn [mbind option_bind]. unfold map_store.
    cbn [maps_at breakers_at].
    rewrite list_lookup_insert_eq by (by eapply lookup_lt_Some).
    cbn [mbind option_bind]. by rewrite list_insert_insert_eq.
Qed.

Lemma All_copies r h m :
  maps_at h !! breakers r = Some m ->
  All r h = Some (length (maps_at h),
                  mkHeap (breakers_at h) (maps_at h ++ [m])).
Proof.
  intros Hm. unfold All. rewrite Hm. cbn [mbind option_bind make_map].
  rewrite (copy_loop _ _ _ ∅).
  - cbn [mbind option_bind breakers_at maps_at]. do 3 f_equal.
    replace (foldr (λ kv a, <[kv.1:=kv.2]> a) ∅ (map_to_list m))
      with (list_to_map (map_to_list m) : gmap string ref) by done.
    rewrite list_to_map_to_list.
    replace (length (maps_at h)) with (length (maps_at h) + 0)%nat by lia.
    by rewrite insert_app_r.
  - cbn [maps_at]. by rewrite lookup_app_r, Nat.sub_diag.
Qed.

Lemma mutate_all_other (o : ref) mus h :
  (o < length (maps_at h))%nat ->
  ∃ h', mutate_all o mus h = Some h' ∧
        breakers_at h' = breakers_at h ∧
        ∀ o', o' ≠ o -> maps_at h' !! o' = maps_at h !! o'.
Proof.
  revert h. induction mus as [|mu mus IH]; intros h Hlt.
  - by exists h.
  - destruct (lookup_lt_is_Some_2 _ _ Hlt) as [mv Hmv].
    assert (∃ mv', mutate o mu h =
                   Some (mkHeap (breakers_at h) (<[o := mv']> (maps_at h))))
      as [mv' Hmu].
    { destruct mu; cbn [mutate]; unfold map_store, map_delete; rewrite Hmv;
        by eexists. }
    destruct (IH (mkHeap (breakers_at h) (<[o := mv']> (maps_at h))))
      as (h' & Hrun & Hb & Hoth).
    { cbn [maps_at]. by rewrite length_insert. }
    exists h'. cbn [mutate_all]. rewrite Hmu. cbn [mbind option_bind].
    split; [done|]. split; [done|].
    intros o' Ho'. rewrite (Hoth o' Ho'). cbn [maps_at].
    by apply list_lookup_insert_ne.
Qed.

(** C7. [All] returns a new map holding the registry's current entries
    and leaves the registry's own map alone. Whatever the holder then puts
    into or removes from the returned map, the registry's map still holds
    the same entries; and whatever requests the registry serves afterwards,
    the returned map still holds the entries it was given. *)
Theorem snapshot_is_independent r h m :
  maps_at h !! breakers r = Some m ->
  ∃ out h1, All r h = Some (out, h1) ∧
    out ≠ breakers r ∧
    maps_at h1 !! out = Some m ∧
    maps_at h1 !! breakers r = Some m ∧
    breakers_at h1 = breakers_at h ∧
    (∀ mus, ∃ h2, mutate_all out mus h1 = Some h2 ∧
                  maps_at h2 !! breakers r = Some m) ∧
    (∀ qs w, ∃ ps h2 w2, serve_all r qs h1 w = Some (ps, h2, w2) ∧
                         maps_at h2 !! out = Some m).
Proof.
  intros Hm. pose proof (lookup_lt_Some _ _ _ Hm) as Hlt.
  exists (length (maps_at h)), (mkHeap (breakers_at h) (maps_at h ++ [m])).
  split; [by apply All_copies|]. split; [lia|].
  assert (Hout : (maps_at h ++ [m]) !! length (maps_at h) = Some m).
  { by rewrite lookup_app_r, Nat.sub_diag. }
  assert (Hreg : (maps_at h ++ [m]) !! breakers r = Some m).
  { by rewrite lookup_app_l. }
  split; [done|]. split; [done|]. split; [done|]. split.
  - intros mus.
    destruct (mutate_all_other (length (maps_at h)) mus
                (mkHeap (breakers_at h) (maps_at h ++ [m])))
      as (h2 & Hrun & _ & Hoth).
    { cbn [maps_at]. rewrite length_app. cbn [length]. lia. }
    exists h2. split; [done|]. rewrite Hoth by lia. done.
  - intros qs w.
    destruct (serve_all_run r qs (mkHeap (breakers_at h) (maps_at h ++ [m])) w m
                (length (breakers_at h)) Hreg)
      as (ps & h2 & w2 & m' & Hrun & _ & _ & _ & _ & Hoth & _).
    { done. }
    { intros p cb Hge Hcb. cbn [breakers_at] in Hcb.
      apply lookup_lt_Some in Hcb. lia. }
    exists ps, h2, w2. split; [done|]. rewrite Hoth by lia. done.
Qed.

End RegistryFacts.

Example registry_returns_same_pointer :
  (λ r, r.1.1) <$>
    serve_all test_registry
      [ReqGet "a"; ReqGet "b"; ReqGetWithConfig "a" overshoot_config; ReqGet "a"]
      test_heap test_world
  = Some [0; 1; 0; 0]%nat.
Proof. reflexivity. Qed.

Lemma one_breaker_per_name_witness :
  serve test_registry (ReqGet "a") test_heap test_world
  = Some (registered test_registry (ReqGet "a") test_heap test_world).
Proof.
  refine (proj1 (proj1 (proj2 (one_breaker_per_name test_registry test_heap
    test_world ∅ [] [] _)) (ReqGet "a") _)).
  - reflexivity.
  - reflexivity.
Defined.

Lemma snapshot_is_independent_witness :
  ∃ out h1, All test_registry test_heap = Some (out, h1) ∧ out ≠ breakers test_registry.
Proof.
  destruct (snapshot_is_independent test_registry test_heap ∅)
    as (out & h1 & HAll & Hne & _).
  - reflexivity.
  - exists out, h1. split; [exact HAll | exact Hne].
Defined.

(** Two requests for the same name that both miss under the read lock:
    the second to take the write lock finds the breaker of the first. *)
Example racing_requests_share_one_breaker :
  (λ r, (r.1.1, length (breakers_at r.1.2))) <$>
    run_schedule test_registry [0; 1; 0; 1]%nat
      [Pending (ReqGet "x"); Pending (ReqGetWithConfig "x" overshoot_config)]
      test_heap test_world
  = Some ([Returned (ReqGet "x") 0%nat;
           Returned (ReqGetWithConfig "x" overshoot_config) 0%nat], 1%nat).
Proof. reflexivity. Qed.

(** * Further properties of the code *)

(** ** The sliding window *)

Lemma failures_in_replicate_success n : failures_in (replicate n success) = 0.
Proof.
  induction n as [|n IH]; [done|].
  cbn [replicate]. rewrite failures_in_cons, IH.
  by rewrite bool_decide_eq_false_2.
Qed.

Lemma window_inv_agree cap os w1 w2 :
  window_inv cap os w1 -> window_inv cap os w2 ->
  total w1 = total w2 ∧ fails w1 = fails w2 ∧ failureRate w1 = failureRate w2 ∧
  Go.len (buf w1) = Go.len (buf w2).
Proof.
  intros [Hc1 _ Hn1 _ Hl1 Hf1] [Hc2 _ Hn2 _ Hl2 Hf2].
  assert (Hcount : count w1 = count w2) by congruence.
  assert (Hfails : fails w1 = fails w2).
  { rewrite Hf1, Hf2, Hl1, Hl2, Hcount. done. }
  unfold total, failureRate. rewrite Hcount, Hfails, Hc1, Hc2. done.
Qed.

(** X1. Whatever a tracker has been through, [reset] leaves it reporting
    [total() = 0] and [failureRate() = 0], and from there on it answers
    every sequence of [record] calls exactly as a new tracker of the same
    capacity does, although its buffer still holds the old slots. *)
Theorem reset_forgets_history
    (size : Z) (ops : list tracker_op) (w : slidingWindow) (os : list outcome) :
  1 <= size <= Go.max_int ->
  run_tracker ops (newSlidingWindow size) = Some w ->
  total (reset w) = 0 ∧ failureRate (reset w) = Go.fzero ∧
  ∃ w1 w2,
    record_all os (reset w) = Some w1 ∧
    record_all os (newSlidingWindow size) = Some w2 ∧
    total w1 = total w2 ∧ fails w1 = fails w2 ∧
    failureRate w1 = failureRate w2 ∧ Go.len (buf w1) = size.
Proof.
  intros Hsize Hrun. split; [done|]. split; [done|].
  destruct (run_tracker_inv size [] ops _ (new_window_inv size Hsize))
    as (w' & Hrun' & Hinv).
  rewrite Hrun in Hrun'. injection Hrun' as <-.
  destruct (record_all_inv size [] os _ (reset_window_inv _ _ _ Hinv))
    as (w1 & Hrun1 & Hinv1).
  destruct (record_all_inv size [] os _ (new_window_inv size Hsize))
    as (w2 & Hrun2 & Hinv2).
  exists w1, w2. split; [done|]. split; [done|].
  destruct (window_inv_agree _ _ _ _ Hinv1 Hinv2) as (Ht & Hf & Hr & _).
  split; [done|]. split; [done|]. split; [done|]. by destruct Hinv1.
Qed.

Lemma reset_forgets_history_witness :
  ∃ w1 w2,
    record_all [success; failure] (reset (mkWindow (replicate 3 failure) 0 3 3)) = Some w1 ∧
    record_all [success; failure] (newSlidingWindow 3) = Some w2 ∧
    total w1 = total w2 ∧ fails w1 = fails w2.
Proof.
  destruct (reset_forgets_history 3 (replicate 3 (DoRecord failure))
              (mkWindow (replicate 3 failure) 0 3 3) [success; failure])
    as (_ & _ & w1 & w2 & H1 & H2 & Ht & Hf & _).
  - unfold Go.max_int. lia.
  - reflexivity.
  - exists w1, w2. split; [exact H1|]. split; [exact H2|]. split; [exact Ht|exact Hf].
Defined.

Lemma last_n_one {A} (l : list A) (x : A) : last l = Some x -> last_n 1 l = [x].
Proof.
  intros Hl. destruct (last_Some l x) as [[l' ->] _]; [done|].
  rewrite last_n_app_ge by (cbn; lia). cbn [length].
  rewrite Nat.sub_diag. unfold last_n. by rewrite Nat.sub_0_r, drop_all.
Qed.

(** X2. A tracker asked for with a size of zero or less has capacity 1: it
    never panics, and after any calls to [record] it holds exactly the last
    outcome, so that [total()] is 1 and [failureRate()] is 1 or 0 as that
    outcome was a failure or not. *)
Theorem nonpositive_size_holds_last_outcome
    (size : Z) (os : list outcome) (o : outcome) :
  size <= 0 -> last os = Some o ->
  ∃ w, record_all os (newSlidingWindow size) = Some w ∧
       Go.len (buf w) = 1 ∧ total w = 1 ∧
       fails w = (if bool_decide (o = failure) then 1 else 0) ∧
       failureRate w = (if bool_decide (o = failure) then 1%float else 0%float).
Proof.
  intros Hsize Hlast.
  assert (Hnew : newSlidingWindow size = newSlidingWindow 1).
  { unfold newSlidingWindow. by destruct (Z.leb_spec size 0); [|lia]. }
  rewrite Hnew.
  destruct (record_all_inv 1 [] os _ (new_window_inv 1 ltac:(unfold Go.max_int; lia)))
    as (w & Hrun & Hinv).
  cbn [app] in Hinv. exists w. split; [done|].
  destruct Hinv as [Hcap Hr Hcnt Hpos Hlive Hfails].
  assert (Hlen : 1 <= Go.len os).
  { destruct os; [done|]. unfold Go.len. cbn [length]. lia. }
  assert (Hc : count w = 1) by lia.
  assert (Hf : fails w = (if bool_decide (o = failure) then 1 else 0)).
  { rewrite Hfails, Hlive, Hc. change (Z.to_nat 1) with 1%nat.
    rewrite (last_n_one _ _ Hlast), failures_in_cons, failures_in_nil. lia. }
  split; [done|]. split; [done|]. split; [done|].
  unfold failureRate. rewrite Hf, Hc. by case_bool_decide.
Qed.

Lemma nonpositive_size_holds_last_outcome_witness :
  ∃ w, record_all [failure; success; failure] (newSlidingWindow (-4)) = Some w ∧
       total w = 1 ∧ failureRate w = 1%float.
Proof.
  destruct (nonpositive_size_holds_last_outcome (-4) [failure; success; failure] failure)
    as (w & Hrun & _ & Ht & _ & Hr).
  - lia.
  - reflexivity.
  - exists w. split; [exact Hrun|]. split; [exact Ht|exact Hr].
Defined.

(** X3. Once as many outcomes of one kind as the tracker has slots have
    been recorded in a row, nothing of the earlier history is left: after
    [size] successes the tracker holds no failure, after [size] failures
    nothing but failures, and [total()] is [size] either way. *)
Theorem full_run_replaces_history (size : Z) (os : list outcome) (o : outcome) :
  1 <= size <= Go.max_int ->
  ∃ w, record_all (os ++ replicate (Z.to_nat size) o) (newSlidingWindow size) = Some w ∧
       total w = size ∧
       fails w = (if bool_decide (o = failure) then size else 0).
Proof.
  intros Hsize.
  destruct (record_all_inv size [] (os ++ replicate (Z.to_nat size) o) _
              (new_window_inv size Hsize)) as (w & Hrun & Hinv).
  cbn [app] in Hinv. exists w. split; [done|].
  destruct Hinv as [Hcap Hr Hcnt Hpos Hlive Hfails].
  assert (Hc : count w = size).
  { rewrite Hcnt. unfold Go.len. rewrite length_app, length_replicate. lia. }
  split; [done|].
  rewrite Hfails, Hlive, Hc, last_n_app_ge by (rewrite length_replicate; lia).
  rewrite length_replicate, Nat.sub_diag.
  unfold last_n at 1. rewrite Nat.sub_0_r, drop_all. cbn [app].
  case_bool_decide as Ho.
  - rewrite Ho, failures_in_replicate. lia.
  - destruct o; [|done]. apply failures_in_replicate_success.
Qed.

Lemma full_run_replaces_history_witness :
  ∃ w, record_all ([failure; failure] ++ replicate (Z.to_nat 3) success)
         (newSlidingWindow 3) = Some w ∧ total w = 3 ∧ fails w = 0.
Proof.
  destruct (full_run_replaces_history 3 [failure; failure] success) as (w & Hrun & Ht & Hf).
  - unfold Go.max_int. lia.
  - exists w. split; [exact Hrun|]. split; [exact Ht|exact Hf].
Defined.

(** ** Runs of a breaker *)

(** A quotient with numerator zero is below every threshold that is not
    itself at or below zero, whatever the denominator. *)
Lemma zero_quotient_below (thr x : float) :
  PrimFloat.leb thr 0%float = false ->
  PrimFloat.leb thr (PrimFloat.div 0%float x) = false.
Proof.
  rewrite !FloatAxioms.leb_spec, FloatAxioms.div_spec.
  change (FloatOps.Prim2SF 0%float) with (SpecFloat.S754_zero false).
  destruct (FloatOps.Prim2SF x) as [sx|sx| |sx mx ex];
    destruct (FloatOps.Prim2SF thr) as [st|st| |st mt et];
    cbn; try done; destruct sx; cbn; done.
Qed.

Section Runs.

Context {V : Type}.
Implicit Types (cb : CircuitBreaker V) (w : World) (c : call V) (k : Config V).

Lemma follows_app k s evs1 s1 evs2 s2 :
  follows k s evs1 s1 -> follows k s1 evs2 s2 -> follows k s (evs1 ++ evs2) s2.
Proof.
  intros H1 H2. induction H1 as [s|s evs s' Hs H IH|evs s' H IH|s t evs s' Hl H IH].
  - done.
  - cbn [app]. apply follows_call; auto.
  - cbn [app]. apply follows_fallback; auto.
  - rewrite <- app_assoc. apply follows_move; auto.
Qed.

Lemma follows_one_move k s t :
  legal s t = true -> follows k s (transition_log k s t) t.
Proof.
  intros Hl. rewrite <- (app_nil_r (transition_log k s t)).
  apply follows_move; [done|constructor].
Qed.

Lemma beforeCall_follows cb w e cb' w' :
  beforeCall cb w = (e, cb', w') ->
  ∃ evs, trace w' = trace w ++ evs ∧
    follows (cfg cb) (state cb) evs (state cb') ∧
    match e with
    | None => state cb' ≠ StateOpen
    | Some x => x = ErrCircuitOpen ∧ state cb' = StateOpen
    end.
Proof.
  unfold beforeCall. destruct (state cb) eqn:Hst.
  - intros [= <- <- <-]. exists []. rewrite app_nil_r, Hst.
    split; [done|]. split; [constructor|done].
  - cbn [now]. destruct (_ >=? _).
    + rewrite setState_moved by (by rewrite Hst). intros [= <- <- <-].
      eexists. split; [done|]. split; [|done].
      unfold transition_events. rewrite Hst. by apply follows_one_move.
    + intros [= <- <- <-]. exists []. cbn [trace]. rewrite app_nil_r, Hst.
      split; [done|]. split; [constructor|done].
  - intros [= <- <- <-]. exists []. rewrite app_nil_r, Hst.
    split; [done|]. split; [constructor|done].
Qed.

Lemma afterCall_follows err cb w cb' w' :
  afterCall err cb w = Some (cb', w') ->
  ∃ evs, trace w' = trace w ++ evs ∧ (Invoked ∉ evs) ∧
    follows (cfg cb) (state cb) evs (state cb').
Proof.
  assert (Hstay : ∀ cb0 w0, state cb0 = state cb -> cfg cb0 = cfg cb ->
            ∃ evs, trace w0 = trace w0 ++ evs ∧ (Invoked ∉ evs) ∧
                   follows (cfg cb) (state cb) evs (state cb0)).
  { intros cb0 w0 Hs Hc. exists []. rewrite app_nil_r, Hs.
    split; [done|]. split; [apply not_elem_of_nil|constructor]. }
  assert (Hmove : ∀ to cb0, state cb0 = state cb -> cfg cb0 = cfg cb ->
            legal (state cb) to = true ->
            (Invoked ∉ transition_events cb0 to) ∧
            follows (cfg cb) (state cb) (transition_events cb0 to) to).
  { intros to cb0 Hs Hc Hl. unfold transition_events. rewrite Hs, Hc. split.
    - destruct (OnStateChange (cfg cb));
        repeat (apply not_elem_of_cons; split; [done|]); apply not_elem_of_nil.
    - by apply follows_one_move. }
  unfold afterCall. destruct (state cb) eqn:Hst.
  - destruct (record _ _) as [win|]; [|done]. cbn [mbind option_bind].
    destruct (_ && _).
    + rewrite setState_moved by (cbn; by rewrite Hst). intros [= <- <-].
      eexists. split; [done|]. by apply Hmove.
    + intros [= <- <-]. by apply Hstay.
  - intros [= <- <-]. by apply Hstay.
  - destruct (not_nil err).
    + rewrite setState_moved by (by rewrite Hst). intros [= <- <-].
      eexists. split; [done|]. by apply Hmove.
    + destruct (_ >=? _).
      * rewrite setState_moved by (cbn; by rewrite Hst). intros [= <- <-].
        eexists. split; [done|]. by apply Hmove.
      * intros [= <- <-]. by apply Hstay.
Qed.

Lemma State_follows cb w s cb' w' :
  State_ cb w = (s, cb', w') ->
  ∃ evs, trace w' = trace w ++ evs ∧ follows (cfg cb) (state cb) evs (state cb').
Proof.
  unfold State_. destruct (state cb) eqn:Hst;
    try (intros [= <- <- <-]; exists []; rewrite app_nil_r, Hst;
         split; [done|constructor]).
  cbn [now]. destruct (_ >=? _).
  - rewrite setState_moved by (by rewrite Hst). intros [= <- <- <-].
    eexists. split; [done|].
    unfold transition_events. rewrite Hst. by apply follows_one_move.
  - intros [= <- <- <-]. exists []. cbn [trace]. rewrite app_nil_r, Hst.
    split; [done|constructor].
Qed.

(** One call through a well-formed breaker: it returns, the breaker stays
    well formed and keeps its configuration, and what it adds to the trace
    is a legal continuation. *)
Lemma Execute_follows os c cb w :
  breaker_inv os cb ->
  ∃ r e cb' w' os' evs, Execute c cb w = Some (r, e, cb', w') ∧
    breaker_inv os' cb' ∧ cfg cb' = cfg cb ∧
    trace w' = trace w ++ evs ∧
    follows (cfg cb) (state cb) evs (state cb').
Proof.
  intros Hinv. pose proof (counted_inv _ _ Hinv) as Hinvc.
  destruct (beforeCall (counted cb) w) as [[e cb1] w1] eqn:Hbc.
  destruct (beforeCall_inv _ _ _ _ _ _ Hbc Hinvc) as [Hinv1 Hcfg1].
  destruct (beforeCall_follows _ _ _ _ _ Hbc) as (evs1 & Htr1 & Hf1 & He).
  cbn [counted cfg state set_totalRequests] in Hcfg1, Hf1.
  destruct e as [e|].
  - destruct He as [-> Hopen].
    rewrite (Execute_rejected _ _ _ _ _ _ Hbc).
    destruct (Fallback (cfg cb1)).
    + do 5 eexists. exists (evs1 ++ [FellBack (Some ErrCircuitOpen)]).
      split; [done|]. split; [by apply (breaker_inv_ext os cb1)|].
      split; [done|]. split.
      * cbn [emit trace]. by rewrite Htr1, <- app_assoc.
      * eapply follows_app; [exact Hf1|]. cbn [state set_totalFailures].
        rewrite Hopen. apply follows_fallback. constructor.
    + do 5 eexists. exists evs1.
      split; [done|]. split; [by apply (breaker_inv_ext os cb1)|].
      split; [done|]. split; done.
  - destruct (excluded c) eqn:Hex.
    + rewrite (Execute_excluded _ _ _ _ _ Hbc Hex).
      do 4 eexists. exists os, (evs1 ++ [Invoked]).
      split; [done|]. split; [done|]. split; [done|]. split.
      * cbn [emit trace]. by rewrite Htr1, <- app_assoc.
      * eapply follows_app; [exact Hf1|]. apply follows_call; [done|constructor].
    + destruct (afterCall_inv _ (fn_err c) _ (emit Invoked w1) Hinv1)
        as (cb2 & w2 & os2 & Hac & Hinv2 & Hcfg2 & _).
      destruct (afterCall_follows _ _ _ _ _ Hac) as (evs2 & Htr2 & _ & Hf2).
      rewrite (Execute_recorded _ _ _ _ _ _ _ Hbc Hex Hac).
      do 4 eexists. exists os2, (evs1 ++ Invoked :: evs2).
      split; [done|].
      split; [destruct (not_nil (fn_err c)); by apply (breaker_inv_ext os2 cb2)|].
      split; [destruct (not_nil (fn_err c)); cbn; congruence|].
      split.
      * rewrite Htr2. cbn [emit trace]. rewrite Htr1, <- !app_assoc. done.
      * eapply follows_app; [exact Hf1|]. apply follows_call; [done|].
        rewrite Hcfg1 in Hf2. by destruct (not_nil (fn_err c)).
Qed.

Lemma perform_follows os o cb w :
  breaker_inv os cb ->
  ∃ cb' w' os' evs, perform o cb w = Some (cb', w') ∧
    breaker_inv os' cb' ∧ cfg cb' = cfg cb ∧
    trace w' = trace w ++ evs ∧
    follows (cfg cb) (state cb) evs (state cb').
Proof.
  intros Hinv. destruct o as [|err|c| |]; cbn [perform].
  - destruct (beforeCall cb w) as [[e cb1] w1] eqn:Hbc.
    destruct (beforeCall_inv _ _ _ _ _ _ Hbc Hinv) as [Hinv1 Hcfg1].
    destruct (beforeCall_follows _ _ _ _ _ Hbc) as (evs1 & Htr1 & Hf1 & _).
    by exists cb1, w1, os, evs1.
  - destruct (afterCall_inv _ err _ w Hinv) as (cb1 & w1 & os1 & Hac & Hinv1 & Hcfg1 & _).
    destruct (afterCall_follows _ _ _ _ _ Hac) as (evs1 & Htr1 & _ & Hf1).
    by exists cb1, w1, os1, evs1.
  - destruct (Execute_follows os c cb w Hinv)
      as (r & e & cb1 & w1 & os1 & evs & Hex & Hinv1 & Hcfg1 & Htr & Hf).
    rewrite Hex. by exists cb1, w1, os1, evs.
  - destruct (State_ cb w) as [[s cb1] w1] eqn:HS.
    pose proof (State_inv _ _ _ _ _ _ HS Hinv) as Hinv1.
    destruct (State_frame _ _ _ _ _ HS) as (_ & Hcfg1 & _).
    destruct (State_follows _ _ _ _ _ HS) as (evs1 & Htr1 & Hf1).
    by exists cb1, w1, os, evs1.
  - exists cb, w, os, []. rewrite app_nil_r.
    split; [done|]. split; [done|]. split; [done|]. split; [done|constructor].
Qed.

Lemma perform_all_follows os ops cb w :
  breaker_inv os cb ->
  ∃ cb' w' os' evs, perform_all ops cb w = Some (cb', w') ∧
    breaker_inv os' cb' ∧ cfg cb' = cfg cb ∧
    trace w' = trace w ++ evs ∧
    follows (cfg cb) (state cb) evs (state cb').
Proof.
  revert os cb w. induction ops as [|o ops IH]; intros os cb w Hinv.
  - exists cb, w, os, []. rewrite app_nil_r.
    split; [done|]. split; [done|]. split; [done|]. split; [done|constructor].
  - destruct (perform_follows os o cb w Hinv)
      as (cb1 & w1 & os1 & evs1 & Hp & Hinv1 & Hcfg1 & Htr1 & Hf1).
    destruct (IH os1 cb1 w1 Hinv1)
      as (cb2 & w2 & os2 & evs2 & Hrun & Hinv2 & Hcfg2 & Htr2 & Hf2).
    exists cb2, w2, os2, (evs1 ++ evs2). cbn [perform_all]. rewrite Hp.
    cbn [mbind option_bind]. split; [done|]. split; [done|].
    split; [congruence|]. split.
    + by rewrite Htr2, Htr1, <- app_assoc.
    + eapply follows_app; [exact Hf1|]. by rewrite <- Hcfg1.
Qed.

End Runs.

Section RunProperties.

Context {V : Type}.
Implicit Types (cb : CircuitBreaker V) (w : World) (c : call V) (k : Config V).

(** X4. Nothing that can be done to a breaker built by [New] makes it
    panic: any sequence of admission checks, outcome recordings, calls and
    queries runs to completion. Along the way the configuration stays the
    one [New] computed, the window keeps its capacity and its counters stay
    within [0 <= fails <= count <= capacity], and the probe counter stays
    below the probe count and is zero outside HalfOpen. *)
Theorem operations_never_panic k (w0 : World) (ops : list operation) :
  in_range k ->
  ∃ cb' w', perform_all ops (New k w0).1 (New k w0).2 = Some (cb', w') ∧
    cfg cb' = withDefaults k ∧
    Go.len (buf (window cb')) = WindowSize (withDefaults k) ∧
    (0 <= fails (window cb') <= count (window cb') ∧
     count (window cb') <= WindowSize (withDefaults k)) ∧
    0 <= probeSuccesses cb' < ProbeCount (withDefaults k) ∧
    (state cb' ≠ StateHalfOpen -> probeSuccesses cb' = 0).
Proof.
  intros Hk.
  destruct (perform_all_follows [] ops (New k w0).1 (New k w0).2 (New_inv k w0 Hk))
    as (cb' & w' & os' & evs & Hrun & Hinv & Hcfg & _).
  exists cb', w'. split; [done|].
  assert (Hc : cfg cb' = withDefaults k) by (rewrite Hcfg; done).
  split; [done|].
  pose proof (not_probing_zero _ _ Hinv) as Hz.
  pose proof (probing_range _ _ Hinv) as Hpr.
  destruct Hinv as [Hs Hp Hw _]. rewrite Hc in *.
  pose proof (window_inv_bounds _ _ _ Hw) as [Hb1 Hb2].
  destruct Hw as [Hcap _ _ _ _ _].
  split; [done|]. split; [lia|]. split; [|done].
  destruct (decide (state cb' = StateHalfOpen)) as [Hh|Hh]; [by apply Hpr|].
  rewrite (Hz Hh). lia.
Qed.



Lemma clean_window_never_trips k win :
  fails win = 0 -> Go.fle (FailureThreshold k) Go.fzero = false ->
  trips k win = false.
Proof.
  intros Hf Hthr. unfold trips, failureRate, Go.fge. rewrite Hf.
  destruct (count win =? 0).
  - unfold Go.fle in Hthr. rewrite Hthr. apply andb_false_r.
  - change (Go.float64 0) with 0%float.
    rewrite zero_quotient_below by exact Hthr. apply andb_false_r.
Qed.

Lemma threshold_above_zero k :
  Go.fle (FailureThreshold (withDefaults k)) Go.fzero = false.
Proof.
  destruct (withDefaults_fields k) as (_ & _ & -> & _).
  by destruct (Go.fle (FailureThreshold k) Go.fzero) eqn:Hle.
Qed.

Lemma failures_in_all_success l : Forall (eq success) l -> failures_in l = 0.
Proof.
  induction 1 as [|o l <- _ IH]; [done|].
  rewrite failures_in_cons, IH. by rewrite bool_decide_eq_false_2.
Qed.

(** Calls that succeed or are given up leave a Closed breaker Closed. *)
Lemma harmless_calls_closed os cs cb w :
  breaker_inv os cb -> state cb = StateClosed -> Forall (eq success) os ->
  Go.fle (FailureThreshold (cfg cb)) Go.fzero = false ->
  Forall (λ c, not_nil (fn_err c) = false ∨ excluded c = true) cs ->
  ∃ cb' w', Execute_all cs cb w = Some (cb', w') ∧
    state cb' = StateClosed ∧ fails (window cb') = fails (window cb) ∧
    totalFailures cb' = totalFailures cb ∧
    lastStateChange cb' = lastStateChange cb ∧
    trace w' = trace w ++ replicate (length cs) Invoked.
Proof.
  revert os cb w. induction cs as [|c cs IH]; intros os cb w Hinv Hst Hos Hthr Hall.
  - exists cb, w. cbn. by rewrite app_nil_r.
  - apply Forall_cons in Hall as [Hc Hcs].
    assert (Hbc : beforeCall (counted cb) w = (None, counted cb, w))
      by (by apply beforeCall_closed).
    cbn [Execute_all].
    assert (Hclean : fails (window cb) = 0).
    { destruct Hinv as [_ _ [_ _ _ _ Hl Hf] _]. rewrite Hf, Hl.
      apply failures_in_all_success. unfold last_n. by apply Forall_drop. }
    destruct (excluded c) eqn:Hex.
    + rewrite (Execute_excluded _ _ _ _ _ Hbc Hex). cbn [mbind option_bind].
      destruct (IH os (counted cb) (emit Invoked w)) as
        (cb' & w' & Hrun & Hst' & Hf' & Htf' & Hl' & Htr'); try done.
      { by apply counted_inv. }
      exists cb', w'. split; [done|]. split; [done|]. split; [done|].
      split; [done|]. split; [done|].
      rewrite Htr'. cbn [emit trace length replicate]. by rewrite <- app_assoc.
    + destruct Hc as [Hok|?]; [|done].
      pose proof Hinv as [H1 H2 Hw H4]. rewrite Hst in H4.
      destruct (record_inv _ _ _ success Hw) as (win & Hrec & Hwin).
      assert (Hwin0 : fails win = 0).
      { destruct Hwin as [_ _ _ _ Hl Hf]. rewrite Hf, Hl.
        apply failures_in_all_success. unfold last_n. apply Forall_drop.
        apply Forall_app. split; [done|]. by constructor. }
      assert (Hac : afterCall (fn_err c) (counted cb) (emit Invoked w)
                    = Some (set_window win (counted cb), emit Invoked w)).
      { rewrite (afterCall_closed _ _ _ win); [|done|by rewrite Hok].
        cbn [counted cfg set_totalRequests].
        by rewrite (clean_window_never_trips _ _ Hwin0 Hthr). }
      rewrite (Execute_recorded _ _ _ _ _ _ _ Hbc Hex Hac). rewrite Hok.
      cbn [mbind option_bind].
      edestruct (IH (os ++ [success])) as
        (cb' & w' & Hrun & Hst' & Hf' & Htf' & Hl' & Htr');
        [| | | |exact Hcs|].
      5: { exists cb', w'. split; [exact Hrun|]. split; [exact Hst'|].
           split; [rewrite Hf'; cbn; congruence|].
           split; [exact Htf'|]. split; [exact Hl'|].
           rewrite Htr'. cbn [emit trace length replicate].
           by rewrite <- app_assoc. }
      * split; cbn; rewrite ?Hst; done.
      * done.
      * apply Forall_app. split; [done|]. by constructor.
      * done.
Qed.

(** X6. A breaker built by [New] does not trip as long as no call fails:
    through any run of calls that succeed, or that fail with the caller's
    context done, it stays Closed without a single transition, every call
    reaches the operation, and the failure total stays 0. This holds for
    every configuration, whatever the threshold. *)
Theorem successes_never_trip k (w0 : World) (cs : list (call V)) :
  in_range k ->
  Forall (λ c, not_nil (fn_err c) = false ∨ excluded c = true) cs ->
  ∃ cb' w', Execute_all cs (New k w0).1 (New k w0).2 = Some (cb', w') ∧
    state cb' = StateClosed ∧
    TotalFailures (Metrics cb') = 0 ∧
    LastStateChange (Metrics cb') = clock w0 (reads w0) ∧
    trace w' = trace w0 ++ replicate (length cs) Invoked.
Proof.
  intros Hk Hcs.
  destruct (harmless_calls_closed [] cs (New k w0).1 (New k w0).2)
    as (cb' & w' & Hrun & Hst & _ & Htf & Hl & Htr); try done.
  - by apply New_inv.
  - apply threshold_above_zero.
  - by exists cb', w'.
Qed.

End RunProperties.

Lemma operations_never_panic_witness :
  ∃ cb' w',
    perform_all [Call failFn; QueryState; Outcome None; Admission; QueryMetrics]
      test_breaker test_world' = Some (cb', w') ∧
    cfg cb' = withDefaults test_config.
Proof.
  destruct (operations_never_panic test_config test_world
              [Call failFn; QueryState; Outcome None; Admission; QueryMetrics])
    as (cb' & w' & Hrun & Hcfg & _).
  - split; vm_compute; discriminate.
  - exists cb', w'. split; [exact Hrun|exact Hcfg].
Defined.


Lemma successes_never_trip_witness :
  ∃ cb' w',
    Execute_all [succeedFn; cancelledFn; succeedFn] test_breaker test_world'
    = Some (cb', w') ∧ state cb' = StateClosed.
Proof.
  destruct (successes_never_trip test_config test_world
              [succeedFn; cancelledFn; succeedFn])
    as (cb' & w' & Hrun & Hst & _).
  - split; vm_compute; discriminate.
  - repeat (constructor; [first [left; reflexivity | right; reflexivity]|]).
    constructor.
  - exists cb', w'. split; [exact Hrun|exact Hst].
Defined.

(** ** Probes, admission and the results of a call *)

Section CallProperties.

Context {V : Type}.
Implicit Types (cb : CircuitBreaker V) (w : World) (c : call V) (k : Config V).

Lemma probes_counted_run os ss cb w :
  breaker_inv os cb -> state cb = StateHalfOpen ->
  Forall recorded_success ss ->
  probeSuccesses cb + Go.len ss < ProbeCount (cfg cb) ->
  ∃ cb' w', Execute_all ss cb w = Some (cb', w') ∧ cfg cb' = cfg cb ∧
    state cb' = StateHalfOpen ∧ window cb' = window cb ∧
    openedAt cb' = openedAt cb ∧
    probeSuccesses cb' = probeSuccesses cb + Go.len ss ∧ breaker_inv os cb'.
Proof.
  revert cb w. induction ss as [|s ss IH]; intros cb w Hinv Hst Hss Hlt.
  - exists cb, w. do 5 (split; [done|]). split; [|done].
    unfold Go.len. cbn [length]. lia.
  - apply Forall_cons in Hss as [Hs Hss].
    assert (Hlen : Go.len (s :: ss) = 1 + Go.len ss) by (unfold Go.len; cbn [length]; lia).
    pose proof (Zle_0_nat (length ss)) as Hnn. fold (Go.len ss) in Hnn.
    pose proof (probing_range _ _ Hinv Hst) as Hpr.
    assert (Hbc : beforeCall (counted cb) w = (None, counted cb, w))
      by (by apply beforeCall_half_open).
    pose proof Hinv as [H1 H2 H3 H4].
    pose proof (afterCall_probe_counted (fn_err s) (counted cb) (emit Invoked w)
                  Hst Hs (proj1 Hpr) ltac:(cbn; lia) ltac:(cbn; lia)) as Hac.
    cbn [Execute_all].
    rewrite (Execute_recorded _ _ _ _ _ _ _ Hbc (recorded_success_counts _ Hs) Hac).
    rewrite Hs. cbn [mbind option_bind].
    edestruct IH as (cb' & w' & Hrun & Hcfg & Hst' & Hw' & Ho' & Hp' & Hinv');
      [| |exact Hss| |].
    4: { exists cb', w'. split; [exact Hrun|]. split; [exact Hcfg|].
         split; [exact Hst'|]. split; [exact Hw'|]. split; [exact Ho'|].
         split; [|exact Hinv']. rewrite Hp'. cbn. lia. }
    + split; cbn; rewrite ?Hst; try done. lia.
    + done.
    + cbn. lia.
Qed.

(** X7. In HalfOpen, with no probe counted yet, it takes exactly
    [ProbeCount] successful calls in a row to close the breaker: after one
    fewer it is still HalfOpen with the window and [openedAt] untouched, and
    the next success closes it, empties the window and puts the probe
    counter back to 0. *)
Theorem probe_count_successes_close cb w (ss : list (call V)) (s : call V) :
  well_formed cb -> state cb = StateHalfOpen -> probeSuccesses cb = 0 ->
  Forall recorded_success ss -> recorded_success s ->
  Go.len ss + 1 = ProbeCount (cfg cb) ->
  ∃ cb1 w1, Execute_all ss cb w = Some (cb1, w1) ∧
    state cb1 = StateHalfOpen ∧ window cb1 = window cb ∧
    openedAt cb1 = openedAt cb ∧ probeSuccesses cb1 = Go.len ss ∧
    ∃ cb2 w2, Execute s cb1 w1 = Some (fn_result s, fn_err s, cb2, w2) ∧
      state cb2 = StateClosed ∧ window cb2 = reset (window cb) ∧
      total (window cb2) = 0 ∧ probeSuccesses cb2 = 0.
Proof.
  intros [os Hinv] Hst Hp0 Hss Hs Hn.
  destruct (probes_counted_run os ss cb w Hinv Hst Hss)
    as (cb1 & w1 & Hrun & Hcfg1 & Hst1 & Hw1 & Ho1 & Hp1 & Hinv1); [lia|].
  exists cb1, w1. split; [done|]. split; [done|]. split; [done|].
  split; [done|]. split; [lia|].
  destruct (probe_closes os s cb1 w1 Hinv1 Hst1 Hs)
    as (cb2 & w2 & Hex & _ & Hst2 & Hw2 & Hp2 & _); [rewrite Hcfg1; lia|].
  exists cb2, w2. rewrite Hw2, Hw1. done.
Qed.

(** X8. A breaker built by [New] cannot trip on its first calls: as long
    as fewer calls than [MinRequests] have been recorded it stays Closed,
    whatever their outcomes, even if every one of them failed; its window
    holds them all, up to its capacity. *)
Theorem first_calls_never_trip k (w0 : World) (cs : list (call V)) :
  in_range k ->
  Forall (λ c, excluded c = false) cs ->
  Go.len cs < MinRequests (withDefaults k) ->
  ∃ cb' w', Execute_all cs (New k w0).1 (New k w0).2 = Some (cb', w') ∧
    state cb' = StateClosed ∧
    total (window cb') = Z.min (WindowSize (withDefaults k)) (Go.len cs) ∧
    fails (window cb') =
      failures_in (last_n (Z.to_nat (total (window cb'))) (map outcome_of cs)).
Proof.
  intros Hk Hcs Hlen.
  destruct (below_minimum_stays_closed [] cs (New k w0).1 (New k w0).2)
    as (cb' & w' & Hrun & Hcfg & Hst & Hinv); try done.
  - by apply New_inv.
  - exists cb', w'. split; [done|]. split; [done|].
    destruct Hinv as [_ _ [_ _ Hcnt _ Hl Hf] _]. cbn [app] in *.
    unfold total. rewrite Hcfg in Hcnt. cbn [New fst cfg] in Hcnt.
    split.
    + rewrite Hcnt. unfold Go.len. by rewrite length_map.
    + by rewrite Hf, Hl.
Qed.

Lemma only_transitions_log cb to : only_transitions (transition_events cb to).
Proof.
  unfold only_transitions, transition_events.
  destruct (OnStateChange (cfg cb)); repeat constructor; done.
Qed.

Lemma beforeCall_only_transitions cb w e cb' w' :
  beforeCall cb w = (e, cb', w') ->
  ∃ evs, trace w' = trace w ++ evs ∧ only_transitions evs.
Proof.
  unfold beforeCall. destruct (state cb) eqn:Hst.
  - intros [= <- <- <-]. exists []. rewrite app_nil_r. split; [done|constructor].
  - cbn [now]. destruct (_ >=? _).
    + rewrite setState_moved by (by rewrite Hst). intros [= <- <- <-].
      eexists. split; [done|]. apply only_transitions_log.
    + intros [= <- <- <-]. exists []. cbn [trace]. rewrite app_nil_r.
      split; [done|constructor].
  - intros [= <- <- <-]. exists []. rewrite app_nil_r. split; [done|constructor].
Qed.

Lemma afterCall_only_transitions err cb w cb' w' :
  afterCall err cb w = Some (cb', w') ->
  ∃ evs, trace w' = trace w ++ evs ∧ only_transitions evs.
Proof.
  assert (Hnone : ∃ evs, trace w = trace w ++ evs ∧ only_transitions evs).
  { exists []. rewrite app_nil_r. split; [done|constructor]. }
  unfold afterCall. destruct (state cb) eqn:Hst.
  - destruct (record _ _) as [win|]; [|done]. cbn [mbind option_bind].
    destruct (_ && _).
    + rewrite setState_moved by (cbn; by rewrite Hst). intros [= <- <-].
      eexists. split; [done|]. apply only_transitions_log.
    + by intros [= <- <-].
  - by intros [= <- <-].
  - destruct (not_nil err).
    + rewrite setState_moved by (by rewrite Hst). intros [= <- <-].
      eexists. split; [done|]. apply only_transitions_log.
    + destruct (_ >=? _).
      * rewrite setState_moved by (cbn; by rewrite Hst). intros [= <- <-].
        eexists. split; [done|]. apply only_transitions_log.
      * by intros [= <- <-].
Qed.

Lemma Execute_admitted cb w c :
  well_formed cb -> admits cb w = true ->
  ∃ cb' w' evs1 evs2,
    Execute c cb w = Some (fn_result c, fn_err c, cb', w') ∧
    trace w' = trace w ++ evs1 ++ Invoked :: evs2 ∧
    only_transitions evs1 ∧ only_transitions evs2.
Proof.
  intros [os Hinv] Hadm. unfold admits in Hadm.
  destruct (beforeCall (counted cb) w) as [[e cb1] w1] eqn:Hbc.
  cbn [fst snd] in Hadm. destruct e as [e|]; [done|].
  destruct (beforeCall_only_transitions _ _ _ _ _ Hbc) as (evs1 & Htr1 & Ho1).
  destruct (excluded c) eqn:Hex.
  - rewrite (Execute_excluded _ _ _ _ _ Hbc Hex).
    exists cb1, (emit Invoked w1), evs1, [].
    split; [done|]. split; [|split; [done|constructor]].
    cbn [emit trace]. by rewrite Htr1, <- app_assoc.
  - destruct (beforeCall_inv _ _ _ _ _ _ Hbc (counted_inv _ _ Hinv)) as [Hinv1 _].
    destruct (afterCall_inv _ (fn_err c) _ (emit Invoked w1) Hinv1)
      as (cb2 & w2 & os2 & Hac & _).
    destruct (afterCall_only_transitions _ _ _ _ _ Hac) as (evs2 & Htr2 & Ho2).
    rewrite (Execute_recorded _ _ _ _ _ _ _ Hbc Hex Hac).
    eexists _, w2, evs1, evs2. split; [done|]. split; [|done].
    rewrite Htr2. cbn [emit trace]. rewrite Htr1, <- !app_assoc. done.
Qed.

Lemma admits_false cb w :
  admits cb w = false ↔
  state cb = StateOpen ∧
  Time_Sub (clock w (reads w)) (openedAt cb) < RecoveryTimeout (cfg cb).
Proof.
  unfold admits, beforeCall. cbn [counted state set_totalRequests openedAt cfg].
  destruct (state cb) eqn:Hst; cbn [fst snd not_nil negb].
  - split; [done|]. by intros [? _].
  - cbn [now]. destruct (Z.geb_spec (Time_Sub (clock w (reads w)) (openedAt cb))
                           (RecoveryTimeout (cfg cb))) as [Hge|Hlt].
    + rewrite setState_moved by (cbn; by rewrite Hst). cbn.
      split; [done|]. intros [_ ?]. lia.
    + cbn. done.
  - split; [done|]. by intros [? _].
Qed.

(** X9. A call is turned away exactly when the breaker is Open and the
    clock reading taken for it lies less than the recovery timeout after
    [openedAt]. Every other call is passed through: the operation is
    invoked exactly once, the fallback is not called, and the caller gets
    the operation's own result and error, whatever they are and whatever
    the breaker makes of them. *)
Theorem admitted_calls_pass_through cb w c :
  well_formed cb ->
  (admits cb w = false ↔
   state cb = StateOpen ∧
   Time_Sub (clock w (reads w)) (openedAt cb) < RecoveryTimeout (cfg cb)) ∧
  (admits cb w = true ->
   ∃ cb' w' evs1 evs2,
     Execute c cb w = Some (fn_result c, fn_err c, cb', w') ∧
     trace w' = trace w ++ evs1 ++ Invoked :: evs2 ∧
     only_transitions evs1 ∧ only_transitions evs2).
Proof.
  intros Hwf. split; [apply admits_false|by apply Execute_admitted].
Qed.

Lemma withDefaults_fixed k :
  0 < WindowSize k -> Go.fle (FailureThreshold k) Go.fzero = false ->
  0 < MinRequests k -> 0 < RecoveryTimeout k -> 0 < ProbeCount k ->
  withDefaults k = k.
Proof.
  intros HW HT HM HR HP. rewrite withDefaults_steps.
  assert (H1 : default_WindowSize k = k).
  { unfold default_WindowSize. destruct (Z.leb_spec (WindowSize k) 0); [lia|done]. }
  rewrite H1.
  assert (H2 : default_FailureThreshold k = k).
  { unfold default_FailureThreshold. by rewrite HT. }
  rewrite H2.
  assert (H3 : default_MinRequests k = k).
  { unfold default_MinRequests. destruct (Z.leb_spec (MinRequests k) 0); [lia|done]. }
  rewrite H3.
  assert (H4 : default_RecoveryTimeout k = k).
  { unfold default_RecoveryTimeout.
    destruct (Z.leb_spec (RecoveryTimeout k) 0); [lia|done]. }
  rewrite H4.
  unfold default_ProbeCount. destruct (Z.leb_spec (ProbeCount k) 0); [lia|done].
Qed.

(** X10. The configuration [withDefaults] returns has a window size, a
    minimum, a recovery timeout and a probe count of at least 1 and a
    threshold that is not at or below 0; and [withDefaults] leaves such a
    configuration as it is, so applying it twice is applying it once. *)
Theorem withDefaults_settles k :
  1 <= WindowSize (withDefaults k) ∧ 1 <= MinRequests (withDefaults k) ∧
  1 <= RecoveryTimeout (withDefaults k) ∧ 1 <= ProbeCount (withDefaults k) ∧
  Go.fle (FailureThreshold (withDefaults k)) Go.fzero = false ∧
  withDefaults (withDefaults k) = withDefaults k.
Proof.
  destruct (withDefaults_fields k) as (_ & HW & _ & HM & HR & HP & _).
  assert (H1 : 1 <= WindowSize (withDefaults k))
    by (rewrite HW; destruct (Z.leb_spec (WindowSize k) 0); lia).
  assert (H2 : 1 <= MinRequests (withDefaults k))
    by (rewrite HM; destruct (Z.leb_spec (MinRequests k) 0); lia).
  assert (H3 : 1 <= RecoveryTimeout (withDefaults k))
    by (rewrite HR; destruct (Z.leb_spec (RecoveryTimeout k) 0); unfold Second; lia).
  assert (H4 : 1 <= ProbeCount (withDefaults k))
    by (rewrite HP; destruct (Z.leb_spec (ProbeCount k) 0); lia).
  pose proof (threshold_above_zero k) as H5.
  repeat (split; [done|]). apply withDefaults_fixed; (done || lia).
Qed.

(** X11. [Metrics] does not look at the clock: on an Open breaker whose
    recovery timeout has elapsed it still reports Open, while [State]
    reports HalfOpen, makes the transition, and stamps it with the clock
    reading that follows the one it compared; [Metrics] reports HalfOpen
    from then on. On a breaker that is Closed or HalfOpen [State] changes
    nothing and reads no clock. *)
Theorem metrics_lag_behind_state cb w :
  (state cb = StateOpen ->
   RecoveryTimeout (cfg cb) <= Time_Sub (clock w (reads w)) (openedAt cb) ->
   CurrentState (Metrics cb) = StateOpen ∧
   ∃ cb' w', State_ cb w = (StateHalfOpen, cb', w') ∧
     CurrentState (Metrics cb') = StateHalfOpen ∧
     LastStateChange (Metrics cb') = clock w (S (reads w)) ∧
     reads w' = S (S (reads w)) ∧
     window cb' = window cb ∧ openedAt cb' = openedAt cb) ∧
  (state cb ≠ StateOpen -> State_ cb w = (state cb, cb, w)).
Proof.
  split.
  - intros Hst Hge. split; [done|]. unfold State_. rewrite Hst. cbn [now].
    destruct (Z.geb_spec (Time_Sub (clock w (reads w)) (openedAt cb))
                (RecoveryTimeout (cfg cb))); [|lia].
    rewrite setState_moved by (by rewrite Hst). by do 2 eexists.
  - intros Hst. unfold State_. by destruct (state cb).
Qed.

End CallProperties.

Lemma probe_count_successes_close_witness :
  ∃ cb1 w1,
    Execute_all (replicate 2 succeedFn) half_open_breaker test_world = Some (cb1, w1) ∧
    state cb1 = StateHalfOpen ∧ window cb1 = window half_open_breaker.
Proof.
  destruct (probe_count_successes_close half_open_breaker test_world
              (replicate 2 succeedFn) succeedFn)
    as (cb1 & w1 & Hrun & Hst & Hw & _).
  - exact half_open_breaker_well_formed.
  - vm_compute. reflexivity.
  - vm_compute. reflexivity.
  - repeat constructor.
  - reflexivity.
  - vm_compute. reflexivity.
  - exists cb1, w1. split; [exact Hrun|]. split; [exact Hst|exact Hw].
Defined.

Lemma first_calls_never_trip_witness :
  ∃ cb' w',
    Execute_all (replicate 4 failFn) test_breaker test_world' = Some (cb', w') ∧
    state cb' = StateClosed.
Proof.
  destruct (first_calls_never_trip test_config test_world (replicate 4 failFn))
    as (cb' & w' & Hrun & Hst & _).
  - split; vm_compute; discriminate.
  - repeat constructor.
  - vm_compute. reflexivity.
  - exists cb', w'. split; [exact Hrun|exact Hst].
Defined.

Lemma admitted_calls_pass_through_witness :
  ∃ cb' w' evs1 evs2,
    Execute failFn half_open_breaker test_world = Some (None, errBoom, cb', w') ∧
    trace w' = trace test_world ++ evs1 ++ Invoked :: evs2 ∧
    only_transitions evs1 ∧ only_transitions evs2.
Proof.
  apply (proj2 (admitted_calls_pass_through half_open_breaker test_world failFn
                  half_open_breaker_well_formed)).
  vm_compute. reflexivity.
Defined.

Lemma metrics_lag_behind_state_witness :
  CurrentState (Metrics tripped_breaker) = StateOpen ∧
  ∃ cb' w',
    State_ tripped_breaker (mkWorld (clock test_world) 100 []) = (StateHalfOpen, cb', w') ∧
    CurrentState (Metrics cb') = StateHalfOpen.
Proof.
  destruct (proj1 (metrics_lag_behind_state tripped_breaker
                     (mkWorld (clock test_world) 100 [])))
    as (Hm & cb' & w' & Hs & Hm' & _).
  - vm_compute. reflexivity.
  - vm_compute. discriminate.
  - split; [exact Hm|]. exists cb', w'. split; [exact Hs|exact Hm'].
Defined.

(** ** The generic wrapper *)

Section TypedCalls.

Context {V T : Type}.
Variables (box : T -> V) (unbox : V -> option T) (zero : T).
Implicit Types (cb : CircuitBreaker V) (w : World) (c : typed_call T).

(** X12. [Execute[T]] on a breaker without a fallback, for a type whose
    values survive the round trip through [any]: it returns. A call that is
    let through returns the operation's error and, if that is nil, the
    operation's value; if the error is not nil the value the operation
    returned with it is dropped for the zero value of [T]. A call that is
    turned away returns the zero value and [ErrCircuitOpen]. The breaker is
    left as [Execute] leaves it. *)
Theorem typed_call_returns_value_or_zero cb w c :
  well_formed cb -> (∀ t, unbox (box t) = Some t) -> Fallback (cfg cb) = None ->
  ∃ res e cb' w',
    Execute (untyped box c) cb w = Some (res, e, cb', w') ∧
    Execute_T box unbox zero c cb w =
    Some (if admits cb w
          then (if not_nil (typed_err c) then zero else typed_result c,
                typed_err c, cb', w')
          else (zero, Some ErrCircuitOpen, cb', w')).
Proof.
  intros Hwf Hrt Hfb. unfold Execute_T. fold (untyped box c).
  destruct (admits cb w) eqn:Hadm.
  - destruct (Execute_admitted cb w (untyped box c) Hwf Hadm)
      as (cb' & w' & _ & _ & Hex & _).
    rewrite Hex. do 4 eexists. split; [done|].
    cbn [mbind option_bind untyped fn_result fn_err].
    destruct (typed_err c) as [e|]; cbn [not_nil]; [done|].
    by rewrite Hrt.
  - apply admits_false in Hadm as [Hst Hlt].
    assert (Hbc := beforeCall_open_early (counted cb) w Hst Hlt).
    rewrite (Execute_rejected _ _ _ _ _ _ Hbc).
    cbn [counted cfg set_totalRequests]. rewrite Hfb.
    do 4 eexists. split; done.
Qed.

(** X13. [Execute[T]] panics when the call is turned away and the
    fallback answers with a nil error and a result that is the nil
    interface or holds a value of another type: the type assertion
    [result.(T)] is made on the fallback's result. *)
Theorem typed_call_panics_on_fallback_result cb w c fallback res :
  admits cb w = false ->
  Fallback (cfg cb) = Some fallback ->
  fallback (Some ErrCircuitOpen) = (res, None) ->
  (res ≫= unbox) = None ->
  Execute_T box unbox zero c cb w = None ∧
  ∃ cb' w', Execute (untyped box c) cb w = Some (res, None, cb', w').
Proof.
  intros Hadm Hfb Hres Hun. apply admits_false in Hadm as [Hst Hlt].
  assert (Hbc := beforeCall_open_early (counted cb) w Hst Hlt).
  unfold Execute_T. fold (untyped box c).
  rewrite (Execute_rejected _ _ _ _ _ _ Hbc).
  cbn [counted cfg set_totalRequests]. rewrite Hfb, Hres.
  split; [|by do 2 eexists].
  destruct res as [v|]; cbn in Hun |- *; [by rewrite Hun|done].
Qed.

End TypedCalls.

Lemma typed_call_returns_value_or_zero_witness :
  ∃ res e cb' w',
    Execute (untyped (λ s : string, s) (mkTypedCall "partial"%string errBoom None))
      half_open_breaker test_world = Some (res, e, cb', w') ∧
    Execute_T (λ s, s) Some ""%string (mkTypedCall "partial"%string errBoom None)
      half_open_breaker test_world =
    Some (if admits half_open_breaker test_world
          then (""%string, errBoom, cb', w')
          else (""%string, Some ErrCircuitOpen, cb', w')).
Proof.
  apply (typed_call_returns_value_or_zero (λ s : string, s) Some ""%string
           half_open_breaker test_world (mkTypedCall "partial"%string errBoom None)).
  - exact half_open_breaker_well_formed.
  - reflexivity.
  - vm_compute. reflexivity.
Defined.

Lemma typed_call_panics_on_fallback_result_witness :
  Execute_T (λ s : string, s) Some ""%string (mkTypedCall "ok"%string None None)
    silenced_breaker (mkWorld (clock test_world) 7 []) = None ∧
  ∃ cb' w',
    Execute (untyped (λ s : string, s) (mkTypedCall "ok"%string None None))
      silenced_breaker (mkWorld (clock test_world) 7 []) = Some (None, None, cb', w').
Proof.
  apply (typed_call_panics_on_fallback_result (λ s : string, s) Some ""%string
           silenced_breaker (mkWorld (clock test_world) 7 [])
           (mkTypedCall "ok"%string None None) (λ _, (None, None)) None).
  - vm_compute. reflexivity.
  - vm_compute. reflexivity.
  - reflexivity.
  - reflexivity.
Defined.

(** ** A registry from its creation *)

Section RegistryRuns.

Context {V : Type}.
Implicit Types (r : Registry V) (h : Heap V) (w : World) (q : request (V:=V)).

Lemma first_for_snoc (name : string) (qs : list (request (V:=V))) q :
  first_for name (qs ++ [q]) =
  match first_for name qs with
  | Some q0 => Some q0
  | None => if bool_decide (request_name q = name) then Some q else None
  end.
Proof.
  induction qs as [|q' qs IH]; cbn [app first_for]; [done|].
  by destruct (bool_decide (request_name q' = name)).
Qed.

Lemma first_for_Some (name : string) (qs : list (request (V:=V))) q0 :
  first_for name qs = Some q0 -> q0 ∈ qs ∧ request_name q0 = name.
Proof.
  induction qs as [|q qs IH]; cbn [first_for]; [done|].
  case_bool_decide as Hn.
  - intros [= <-]. split; [left|done].
  - intros H. destruct (IH H). split; [by right|done].
Qed.

Lemma first_for_None (name : string) (qs : list (request (V:=V))) :
  first_for name qs = None -> ∀ q, q ∈ qs -> request_name q ≠ name.
Proof.
  induction qs as [|q' qs IH]; cbn [first_for]; intros H q Hq.
  - by apply elem_of_nil in Hq.
  - case_bool_decide as Hn; [done|].
    apply elem_of_cons in Hq as [->|Hq]; [done|by apply IH].
Qed.

Lemma serve_remembers r served q h w m :
  remembers r served h m ->
  ∃ p h' w' m', serve r q h w = Some (p, h', w') ∧
    remembers r (served ++ [q]) h' m' ∧ m' !! request_name q = Some p ∧ m ⊆ m'.
Proof.
  intros (Hm & Hsome & Hnone).
  destruct (m !! request_name q) as [p|] eqn:Hq.
  - exists p, h, w, m. split; [by apply (serve_found _ _ _ _ m)|].
    split; [|done]. split; [done|]. split.
    + intros name p' Hp'. destruct (Hsome _ _ Hp') as (q0 & w0 & Hf & Hb).
      exists q0, w0. rewrite first_for_snoc, Hf. done.
    + intros name Hn. rewrite first_for_snoc, (Hnone _ Hn).
      case_bool_decide as Hname; [|done]. congruence.
  - rewrite (serve_missing _ _ _ _ m) by done. unfold registered.
    do 4 eexists. split; [done|]. rewrite Hm. cbn [default].
    split; [|split; [by rewrite lookup_insert_eq|by apply insert_subseteq]].
    split; [|split].
    + cbn [maps_at]. apply list_lookup_insert_eq. by eapply lookup_lt_Some.
    + intros name p. cbn [breakers_at].
      destruct (decide (name = request_name q)) as [->|Hne].
      * rewrite lookup_insert_eq. intros [= <-].
        exists q, w. rewrite first_for_snoc, (Hnone _ Hq).
        rewrite bool_decide_eq_true_2 by done. split; [done|].
        rewrite lookup_app_r by done. by rewrite Nat.sub_diag.
      * rewrite lookup_insert_ne by done. intros Hp.
        destruct (Hsome _ _ Hp) as (q0 & w0 & Hf & Hb).
        exists q0, w0. rewrite first_for_snoc, Hf. split; [done|].
        rewrite lookup_app_l; [done|by eapply lookup_lt_Some].
    + intros name.
      destruct (decide (name = request_name q)) as [->|Hne].
      * by rewrite lookup_insert_eq.
      * rewrite lookup_insert_ne by done. intros Hn.
        rewrite first_for_snoc, (Hnone _ Hn).
        rewrite bool_decide_eq_false_2; [done|congruence].
Qed.

Lemma serve_all_remembers r served qs h w m :
  remembers r served h m ->
  ∃ ps h' w' m', serve_all r qs h w = Some (ps, h', w') ∧
    remembers r (served ++ qs) h' m' ∧ m ⊆ m' ∧
    Forall2 (λ q p, m' !! request_name q = Some p) qs ps.
Proof.
  revert served h w m. induction qs as [|q qs IH]; intros served h w m Hrem.
  - exists [], h, w, m. rewrite app_nil_r. split; [done|]. split; [done|].
    split; [done|constructor].
  - destruct (serve_remembers r served q h w m Hrem)
      as (p & h1 & w1 & m1 & Hs & Hrem1 & Hp & Hsub1).
    destruct (IH _ h1 w1 m1 Hrem1) as (ps & h2 & w2 & m2 & Hrun & Hrem2 & Hsub2 & Hall).
    exists (p :: ps), h2, w2, m2. cbn [serve_all]. rewrite Hs. cbn [mbind option_bind].
    rewrite Hrun. cbn [mbind option_bind]. split; [done|].
    split; [by rewrite <- app_assoc in Hrem2|]. split; [by etrans|].
    constructor; [|done]. by eapply lookup_weaken.
Qed.

Lemma NewRegistry_remembers (d : Config V) h0 :
  remembers (NewRegistry d h0).1 [] (NewRegistry d h0).2 ∅.
Proof.
  unfold NewRegistry, make_map. cbn. split; [|split].
  - cbn [maps_at breakers]. rewrite lookup_app_r by done. by rewrite Nat.sub_diag.
  - intros name p. by rewrite lookup_empty.
  - done.
Qed.

(** X14. In a registry made by [NewRegistry], whatever requests it has
    served, each returned pointer is a breaker on the heap that is as [New]
    made it from the configuration of the first request for that name:
    the default configuration if that was a [Get], the given one if it was
    a [GetWithConfig], with [Name] set to the requested name and the
    defaults filled in. The configurations of later requests for the name
    are not used. *)
Theorem first_request_configures_breaker (d : Config V) h0 w
    (qs : list (request (V:=V))) :
  ∃ ps h' w',
    serve_all (NewRegistry d h0).1 qs (NewRegistry d h0).2 w = Some (ps, h', w') ∧
    length ps = length qs ∧
    ∀ i q p, qs !! i = Some q -> ps !! i = Some p ->
      ∃ q0 cb, first_for (request_name q) qs = Some q0 ∧
        breakers_at h' !! p = Some cb ∧
        cfg cb = withDefaults (request_config (NewRegistry d h0).1 q0) ∧
        Name (cfg cb) = request_name q ∧
        state cb = StateClosed ∧ total (window cb) = 0 ∧
        totalRequests cb = 0.
Proof.
  destruct (serve_all_remembers _ [] qs _ w ∅ (NewRegistry_remembers d h0))
    as (ps & h' & w' & m' & Hrun & (Hm & Hsome & Hnone) & _ & Hall).
  exists ps, h', w'. split; [done|]. split; [symmetry; by eapply Forall2_length|].
  intros i q p Hq Hp.
  pose proof (Forall2_lookup_lr _ _ _ _ _ _ Hall Hq Hp) as Hmp.
  destruct (Hsome _ _ Hmp) as (q0 & w0 & Hf & Hb). cbn [app] in Hf.
  exists q0, (New (request_config (NewRegistry d h0).1 q0) w0).1.
  split; [done|]. split; [done|].
  split; [done|]. split; [|done].
  rewrite New_name, request_config_name. by apply first_for_Some in Hf as [_ ?].
Qed.

(** X15. In a registry made by [NewRegistry], after any requests, [All]
    returns a new map that has an entry for a name exactly if a request
    asked for that name, and the entry is the pointer that request got. *)
Theorem snapshot_lists_requested_names (d : Config V) h0 w
    (qs : list (request (V:=V))) :
  ∃ ps h' w' out h'' snapshot,
    serve_all (NewRegistry d h0).1 qs (NewRegistry d h0).2 w = Some (ps, h', w') ∧
    All (NewRegistry d h0).1 h' = Some (out, h'') ∧
    maps_at h' !! out = None ∧
    maps_at h'' !! out = Some snapshot ∧
    ∀ name p, snapshot !! name = Some p ↔
      ∃ i q, qs !! i = Some q ∧ request_name q = name ∧ ps !! i = Some p.
Proof.
  destruct (serve_all_remembers _ [] qs _ w ∅ (NewRegistry_remembers d h0))
    as (ps & h' & w' & m' & Hrun & (Hm & Hsome & Hnone) & _ & Hall).
  exists ps, h', w', (length (maps_at h')),
    (mkHeap (breakers_at h') (maps_at h' ++ [m'])), m'.
  split; [done|]. split; [by apply All_copies|].
  split; [by apply lookup_ge_None_2|].
  split; [cbn [maps_at]; rewrite lookup_app_r by done; by rewrite Nat.sub_diag|].
  intros name p. split.
  - intros Hp. destruct (Hsome _ _ Hp) as (q0 & _ & Hf & _). cbn [app] in Hf.
    apply first_for_Some in Hf as [Hin Hname].
    apply list_elem_of_lookup in Hin as [i Hi].
    destruct (Forall2_lookup_l _ _ _ _ _ Hall Hi) as (p' & Hp' & Hmp').
    exists i, q0. split; [done|]. split; [done|]. congruence.
  - intros (i & q & Hq & <- & Hp).
    exact (Forall2_lookup_lr _ _ _ _ _ _ Hall Hq Hp).
Qed.

End RegistryRuns.

(** ** The names of the states *)

(** X16. [String] gives the three states three different names: two
    states with the same name are the same state. *)
Theorem State_String_distinguishes (s t : State) :
  State_String s = State_String t ↔ s = t.
Proof. split; [|by intros ->]. by destruct s, t. Qed.
